(** * Lazy operator-kind handles: [OpKindWrapper] of [ltc_ops.h]

    A shallow embedding of the class [OpKindWrapper]
    (lazy_tensor_core/csrc/ops/ltc_ops.h) and of the part of the C++
    library it stands on ([std::call_once], a [const char*] read through
    when a [std::string] is built from it).

    The file has three layers:
    - the sequential semantics of the member functions, as a small
      state-and-exception monad over the object [*this] and the world;
    - an interleaving semantics of several threads inside [get()], as an
      executable step function driven by a schedule;
    - the properties of both. *)

From stdpp Require Import gmap strings list.
From Stdlib Require Import Lia.

Set Default Proof Using "Type".

(** ** The host runtime

    [torch::lazy::OpKind] and its registry come from
    [torch/csrc/lazy/ts_backend/ts_node.h] and the headers it includes,
    outside this header. The header uses three things of them: the type,
    its default constructor and the static member [OpKind::Get]. They are
    the fields of this interface; [OpKind_Get] threads the registry state
    (the lookup interns the name) and either returns a kind or throws. *)
Class LazyHost := {
  OpKind : Type;
  Failure : Type;
  Registry : Type;
  OpKind_default : OpKind;
  OpKind_Get : string → Registry → Registry * (Failure + OpKind)
}.

(** Addresses of character arrays. *)
Abbreviation ptr := N.

(** State of a [std::once_flag]: no execution has returned yet and none is
    running; an active execution is running; an execution has returned. *)
Inductive once_flag := once_init | once_active | once_done.

Global Instance once_flag_eq_dec : EqDecision once_flag.
Proof. solve_decision. Defined.

Section Wrapper.
Context `{Host : LazyHost}.

(** ** Data *)

(** The three data members, in declaration order. [name_] is the pointer,
    not the characters. *)
Record OpKindWrapper := mkOpKindWrapper {
  name_ : ptr;
  op_kind_ : OpKind;
  once_ : once_flag
}.

(** What can be observed from outside the object: a call of [OpKind::Get]
    with its argument and how it ended, and an assignment to [op_kind_]. *)
Inductive event :=
| EvGet (name : string) (res : Failure + OpKind)
| EvAssign (v : OpKind).

(** The world around a handle: the character arrays in memory (by the
    address of their first character, without the terminating NUL), the
    registry, and the events so far. *)
Record World := mkWorld {
  chars : gmap N string;
  registry : Registry;
  history : list event
}.

Definition set_op_kind (v : OpKind) (h : OpKindWrapper) : OpKindWrapper :=
  {| name_ := name_ h; op_kind_ := v; once_ := once_ h |}.

Definition set_once (f : once_flag) (h : OpKindWrapper) : OpKindWrapper :=
  {| name_ := name_ h; op_kind_ := op_kind_ h; once_ := f |}.

Definition record (e : event) (w : World) : World :=
  {| chars := chars w; registry := registry w; history := history w ++ [e] |}.

Definition set_registry (r : Registry) (w : World) : World :=
  {| chars := chars w; registry := r; history := history w |}.

(** ** Member functions as computations *)

(** How a call ends: it returns, it exits by an exception, or its
    behaviour is undefined. *)
Inductive outcome (A : Type) :=
| Returned (a : A)
| Thrown (e : Failure)
| Undefined.
Global Arguments Returned {A} a.
Global Arguments Thrown {A} e.
Global Arguments Undefined {A}.

(** A member function run on [*this]: the data members are [mutable], so
    a [const] member function still maps object and world to object and
    world. *)
Definition method (A : Type) : Type :=
  OpKindWrapper → World → OpKindWrapper * World * outcome A.

Global Instance method_ret : MRet method :=
  λ A (a : A) this w, (this, w, Returned a).

(** Sequencing: an exception or undefined behaviour in the first part
    skips the rest. *)
Global Instance method_bind : MBind method :=
  λ A B (k : A → method B) (m : method A) this w,
    match m this w with
    | (this', w', Returned a) => k a this' w'
    | (this', w', Thrown e) => (this', w', Thrown e)
    | (this', w', Undefined) => (this', w', Undefined)
    end.

(** [OpKindWrapper(const char* name) : name_(name) {}]: the pointer goes
    into [name_], [op_kind_] and [once_] are default-constructed, the body
    is empty. *)
Definition construct (name : ptr) (w : World) : OpKindWrapper * World :=
  ({| name_ := name; op_kind_ := OpKind_default; once_ := once_init |}, w).

(** The evaluation of [torch::lazy::OpKind::Get(name_)]: the parameter is
    a [const std::string&], so a temporary string is built from the
    characters [name_] points to at this moment; a pointer to no array is
    undefined behaviour. The call is recorded with its result. *)
Definition call_Get : method OpKind := λ this w,
  match chars w !! name_ this with
  | None => (this, w, Undefined)
  | Some s =>
      let '(r', res) := OpKind_Get s (registry w) in
      let w' := record (EvGet s res) (set_registry r' w) in
      match res with
      | inl e => (this, w', Thrown e)
      | inr v => (this, w', Returned v)
      end
  end.

Definition assign_op_kind (v : OpKind) : method unit := λ this w,
  (set_op_kind v this, record (EvAssign v) w, Returned tt).

(** [[this]() { op_kind_ = torch::lazy::OpKind::Get(name_); }] *)
Definition lambda : method unit :=
  v ← call_Get; assign_op_kind v.

(** [std::call_once(once_, f)] seen from a single thread. On a flag that
    is done it returns at once. Otherwise the call is the active
    execution: it runs [f]; when [f] returns the flag becomes done, when
    [f] throws the flag is as before and the exception leaves
    [call_once]. Entering it on a flag whose active execution is this
    very call chain never returns. *)
Definition call_once (f : method unit) : method unit := λ this w,
  match once_ this with
  | once_done => (this, w, Returned tt)
  | once_active => (this, w, Undefined)
  | once_init =>
      match f (set_once once_active this) w with
      | (this', w', Returned _) => (set_once once_done this', w', Returned tt)
      | (this', w', Thrown e) => (set_once once_init this', w', Thrown e)
      | (this', w', Undefined) => (this', w', Undefined)
      end
  end.

(** A [const torch::lazy::OpKind&]: the only object [get()] ever returns
    a reference to is the member [op_kind_] of its own [*this]. *)
Inductive lvalue := this_op_kind_.

Definition load (l : lvalue) (h : OpKindWrapper) : OpKind :=
  match l with this_op_kind_ => op_kind_ h end.

(** Copy-construction of an [OpKind] from a reference. *)
Definition copy_from (l : lvalue) : method OpKind := λ this w,
  (this, w, Returned (load l this)).

(** [const OpKind& get() const { std::call_once(...); return op_kind_; }] *)
Definition get : method lvalue :=
  call_once lambda;; mret this_op_kind_.

(** [const torch::lazy::OpKind& operator*() const { return get(); }] *)
Definition operator_star : method lvalue := get.

(** [operator torch::lazy::OpKind() const { return get(); }]: the result
    is a copy made from the reference. *)
Definition operator_OpKind : method OpKind :=
  l ← get; copy_from l.

(** ** Sequences of calls from one thread *)

(** The two public ways to resolve a handle. *)
Inductive accessor := Deref | Convert.

(** One call and the value its caller ends up with: after [operator*] the
    caller reads through the reference it got. *)
Definition resolve (a : accessor) : method OpKind :=
  match a with
  | Deref => l ← operator_star; copy_from l
  | Convert => operator_OpKind
  end.

(** A caller that makes the calls one after the other and goes on after
    an exception (it catches it). The outcomes come back in call order. *)
Fixpoint resolve_all (calls : list accessor) (this : OpKindWrapper) (w : World)
  : OpKindWrapper * World * list (outcome OpKind) :=
  match calls with
  | [] => (this, w, [])
  | a :: rest =>
      let '(this', w', r) := resolve a this w in
      let '(this'', w'', rs) := resolve_all rest this' w' in
      (this'', w'', r :: rs)
  end.

(** Calls on two handles living in one world: each entry names the handle
    ([false] the first, [true] the second) and the accessor. *)
Fixpoint resolve_both (prog : list (bool * accessor))
    (h1 h2 : OpKindWrapper) (w : World)
  : OpKindWrapper * OpKindWrapper * World * list (bool * outcome OpKind) :=
  match prog with
  | [] => (h1, h2, w, [])
  | (false, a) :: rest =>
      let '(h1', w', r) := resolve a h1 w in
      let '(h1'', h2'', w'', rs) := resolve_both rest h1' h2 w' in
      (h1'', h2'', w'', (false, r) :: rs)
  | (true, a) :: rest =>
      let '(h2', w', r) := resolve a h2 w in
      let '(h1'', h2'', w'', rs) := resolve_both rest h1 h2' w' in
      (h1'', h2'', w'', (true, r) :: rs)
  end.

(** ** Reading the history *)

Fixpoint count_if {A} (f : A → bool) (l : list A) : nat :=
  match l with
  | [] => 0
  | x :: l' => (if f x then 1 else 0) + count_if f l'
  end.

Definition is_get (e : event) : bool :=
  match e with EvGet _ _ => true | _ => false end.

Definition is_get_ok (e : event) : bool :=
  match e with EvGet _ (inr _) => true | _ => false end.

Definition is_get_fail (e : event) : bool :=
  match e with EvGet _ (inl _) => true | _ => false end.

Definition is_assign (e : event) : bool :=
  match e with EvAssign _ => true | _ => false end.

Definition is_returned {A} (r : outcome A) : bool :=
  match r with Returned _ => true | _ => false end.

Definition is_thrown {A} (r : outcome A) : bool :=
  match r with Thrown _ => true | _ => false end.

Definition is_undefined {A} (r : outcome A) : bool :=
  match r with Undefined => true | _ => false end.

(** ** Several threads inside [get()] *)

(** Where a thread is. [Idle]: outside any call. [AtCallOnce]: it has
    entered [get()] and is at [std::call_once]. [AtLookup]: it is the
    active execution and is about to evaluate [OpKind::Get(name_)].
    [AtStore v]: [Get] has returned [v], the assignment to [op_kind_] has
    not begun. [Storing v]: the assignment is under way ([op_kind_] is an
    object of class type, its assignment is not atomic). [AtLeave]: the
    lambda has returned, [call_once] has not yet marked the flag.
    [AtReturn]: [call_once] has returned, [return op_kind_] is next. *)
Inductive pc :=
| Idle
| AtCallOnce
| AtLookup
| AtStore (v : OpKind)
| Storing (v : OpKind)
| AtLeave
| AtReturn.

(** A thread: its position, the number of calls of [get()] it still has
    to make, and how its calls so far have ended. *)
Record thread := mkThread {
  at_ : pc;
  todo : nat;
  results : list (outcome OpKind)
}.

(** One handle shared by all threads of the pool. *)
Record state := mkState {
  handle : OpKindWrapper;
  world : World;
  pool : list thread
}.

Definition move (p : pc) (th : thread) : thread :=
  {| at_ := p; todo := todo th; results := results th |}.

Definition finish (r : outcome OpKind) (th : thread) : thread :=
  {| at_ := Idle; todo := todo th; results := results th ++ [r] |}.

Definition is_storing (th : thread) : bool :=
  match at_ th with Storing _ => true | _ => false end.

(** The positions of an active execution of the flag. *)
Definition is_active (th : thread) : bool :=
  match at_ th with
  | AtLookup | AtStore _ | Storing _ | AtLeave => true
  | _ => false
  end.

(** One step of thread [t]; [None] when it cannot move (no such thread,
    nothing left to do, or blocked in [std::call_once] while another
    execution is active). A read or write of [op_kind_] that overlaps an
    assignment in progress is a data race: undefined behaviour. *)
Definition step (t : nat) (st : state) : option state :=
  th ← pool st !! t;
  let h := handle st in
  let w := world st in
  let put h' w' th' := Some {| handle := h'; world := w'; pool := <[t := th']> (pool st) |} in
  match at_ th with
  | Idle =>
      match todo th with
      | 0 => None
      | S k => put h w {| at_ := AtCallOnce; todo := k; results := results th |}
      end
  | AtCallOnce =>
      match once_ h with
      | once_init => put (set_once once_active h) w (move AtLookup th)
      | once_active => None
      | once_done => put h w (move AtReturn th)
      end
  | AtLookup =>
      match call_Get h w with
      | (h', w', Returned v) => put h' w' (move (AtStore v) th)
      | (h', w', Thrown e) => put (set_once once_init h') w' (finish (Thrown e) th)
      | (h', w', Undefined) => put h' w' (finish Undefined th)
      end
  | AtStore v =>
      if existsb is_storing (pool st) then put h w (finish Undefined th)
      else put h w (move (Storing v) th)
  | Storing v =>
      let '(h', w', _) := assign_op_kind v h w in
      put h' w' (move AtLeave th)
  | AtLeave => put (set_once once_done h) w (move AtReturn th)
  | AtReturn =>
      if existsb is_storing (pool st) then put h w (finish Undefined th)
      else put h w (finish (Returned (op_kind_ h)) th)
  end.

(** A schedule names the thread to move next; a thread that cannot move
    when named loses its turn. *)
Definition run (sched : list nat) (st : state) : state :=
  foldl (λ st t, default st (step t st)) st sched.

(** A fresh handle on [name] and one thread per entry of [todos], each
    with that many calls of [get()] to make. *)
Definition spawn (name : ptr) (w : World) (todos : list nat) : state :=
  let '(h, w') := construct name w in
  {| handle := h; world := w';
     pool := (λ k, {| at_ := Idle; todo := k; results := [] |}) <$> todos |}.

Definition is_finished (th : thread) : bool :=
  match at_ th, todo th with Idle, 0 => true | _, _ => false end.

Definition all_finished (st : state) : bool := forallb is_finished (pool st).

(** The events since a starting history of length [n]. *)
Definition since (n : nat) (st : state) : list event :=
  drop n (history (world st)).

(** Bound on the steps a thread has left. *)
Definition rank (p : pc) : nat :=
  match p with
  | Idle => 0
  | AtReturn => 1
  | AtLeave => 2
  | Storing _ => 3
  | AtStore _ => 4
  | AtLookup => 5
  | AtCallOnce => 6
  end.

Definition weight (th : thread) : nat := 7 * todo th + rank (at_ th).

Definition fuel (st : state) : nat := sum_list (weight <$> pool st).

(** ** Vocabulary of the properties *)

Definition get_result (e : event) : option (Failure + OpKind) :=
  match e with EvGet _ r => Some r | _ => None end.

(** [answers s r l r_end]: the list [l] is what successive lookups of [s]
    answer when the first one finds the registry in state [r], and the
    last one leaves it in state [r_end]. *)
Fixpoint answers (s : string) (r : Registry) (l : list (Failure + OpKind))
    (r_end : Registry) : Prop :=
  match l with
  | [] => r_end = r
  | x :: l' => ∃ r1, OpKind_Get s r = (r1, x) ∧ answers s r1 l' r_end
  end.

(** The events of lookups of [s] that threw [es], in order. *)
Definition failed_lookups (s : string) (es : list Failure) : list event :=
  (λ e, EvGet s (inl e)) <$> es.

(** The events of the successful resolution of [s] to [v]. *)
Definition resolution (s : string) (v : OpKind) : list event :=
  [EvGet s (inr v); EvAssign v].

(** The registry after the names [names] have been looked up in it, one
    after the other, whether the lookups returned or threw. *)
Definition after (names : list string) (r : Registry) : Registry :=
  foldl (λ r s, (OpKind_Get s r).1) r names.

(** In the run of lookups [names] that started in the registry [r0], a
    lookup of [s] returned [v]. *)
Definition obtained (r0 : Registry) (s : string) (v : OpKind)
    (names : list string) : Prop :=
  ∃ pre post r',
    names = pre ++ s :: post ∧ OpKind_Get s (after pre r0) = (r', inr v).

(** The lookup of [s] never throws. *)
Definition never_fails (s : string) : Prop :=
  ∀ r, ∃ r' v, OpKind_Get s r = (r', inr v).

(** From the state [r0] on the registry gives distinct kinds to distinct
    names: whenever, in one run of lookups that starts in [r0], a lookup
    of a name returns a kind and a later lookup of another name returns a
    kind, the two kinds differ. Kinds from unrelated registry states are
    not compared. *)
Definition distinct_kinds_from (r0 : Registry) : Prop :=
  ∀ pre mid s1 s2 r1 r2 v1 v2,
    s1 ≠ s2 →
    OpKind_Get s1 (after pre r0) = (r1, inr v1) →
    OpKind_Get s2 (after mid r1) = (r2, inr v2) →
    v1 ≠ v2.

(** A handle on the name [s], in a world whose registry has seen the
    lookups [names] since [r0], is either untouched or caches a kind that
    one of those lookups returned for [s]. *)
Definition cached (r0 : Registry) (s : string) (names : list string)
    (h : OpKindWrapper) : Prop :=
  once_ h = once_init ∨
  (once_ h = once_done ∧ obtained r0 s (op_kind_ h) names).

(** *** The invariant of the threads *)

(** An outcome a thread may have got: the cached kind of a handle that is
    done, or an exception. *)
Definition result_ok (h : OpKindWrapper) (r : outcome OpKind) : Prop :=
  match r with
  | Returned v => once_ h = once_done ∧ v = op_kind_ h
  | Thrown _ => True
  | Undefined => False
  end.

(** What the position of a thread says about the flag, about the events
    [tail] since the last failed lookup, and about the cache. *)
Definition thread_inv (s : string) (h : OpKindWrapper) (tail : list event)
    (th : thread) : Prop :=
  match at_ th with
  | Idle | AtCallOnce => True
  | AtLookup =>
      once_ h = once_active ∧ tail = [] ∧ op_kind_ h = OpKind_default
  | AtStore v | Storing v =>
      once_ h = once_active ∧ tail = [EvGet s (inr v)] ∧
      op_kind_ h = OpKind_default
  | AtLeave => once_ h = once_active ∧ tail = resolution s (op_kind_ h)
  | AtReturn => once_ h = once_done
  end ∧
  Forall (result_ok h) (results th).

Definition nthrown (th : thread) : nat := count_if is_thrown (results th).

(** Calls a thread has entered, and its calls entered or still to make. *)
Definition entered (th : thread) : nat :=
  length (results th) + match at_ th with Idle => 0 | _ => 1 end.

Definition budget (th : thread) : nat := entered th + todo th.

(** At most one thread is an active execution. *)
Definition exclusive (l : list thread) : Prop :=
  ∀ i j thi thj,
    l !! i = Some thi → l !! j = Some thj →
    is_active thi = true → is_active thj = true → i = j.

(** The invariant of all states reached from a fresh handle on the name
    [s], in a world whose registry was [r0] and whose history was [h0]. *)
Definition inv (s : string) (r0 : Registry) (h0 : list event) (st : state)
  : Prop :=
  ∃ es tail,
    history (world st) = h0 ++ failed_lookups s es ++ tail ∧
    length es = sum_list (nthrown <$> pool st) ∧
    chars (world st) !! name_ (handle st) = Some s ∧
    answers s r0 (omap get_result (failed_lookups s es ++ tail))
      (registry (world st)) ∧
    (∀ i th, pool st !! i = Some th → thread_inv s (handle st) tail th) ∧
    exclusive (pool st) ∧
    (once_ (handle st) = once_active →
       ∃ i th, pool st !! i = Some th ∧ is_active th = true) ∧
    (once_ (handle st) = once_init →
       tail = [] ∧ op_kind_ (handle st) = OpKind_default) ∧
    (once_ (handle st) = once_done →
       tail = resolution s (op_kind_ (handle st))).

(** From the state [r0] on repeated lookups of a name agree: whenever, in
    one run of lookups that starts in [r0], a lookup of a name returns a
    kind and a later lookup of the same name returns a kind, the two
    kinds are equal. *)
Definition idempotent_from (r0 : Registry) : Prop :=
  ∀ pre mid s r1 r2 v1 v2,
    OpKind_Get s (after pre r0) = (r1, inr v1) →
    OpKind_Get s (after mid r1) = (r2, inr v2) →
    v1 = v2.

(** The flag of the handle is still clear. *)
Definition pending (h : OpKindWrapper) : bool :=
  bool_decide (once_ h = once_init).

(** Whether a program of calls on two handles calls the handle [b]. *)
Definition called (b : bool) (prog : list (bool * accessor)) : bool :=
  existsb (λ c, bool_decide (c.1 = b)) prog.

(** Every lookup among the events is a lookup of [s]. *)
Definition lookups_of (s : string) (evs : list event) : Prop :=
  Forall (λ e, match e with EvGet s' _ => s' = s | EvAssign _ => True end) evs.

End Wrapper.

(** ** A registry to run the handle against

    Modelled from the spec: the registry is the host's ("lookup-or-register
    operator kind by qualified name", idempotent, distinct values for
    distinct names, failing on a malformed name); only its use is in this
    header. This instance interns qualified names: a kind is the name it
    was made from, a name without a namespace separator is refused and
    repeated lookups of a name give equal kinds. *)
Module TestHost.

Definition has_namespace (s : string) : bool :=
  match String.index 0 "::" s with Some _ => true | None => false end.

Definition intern (s : string) (r : list string) : list string :=
  if bool_decide (s ∈ r) then r else r ++ [s].

Definition Get (s : string) (r : list string) : list string * (string + string) :=
  if has_namespace s then (intern s r, inr s)
  else (r, inl ("no namespace: " +:+ s)%string).

Definition host : LazyHost :=
  {| OpKind := string; Failure := string; Registry := list string;
     OpKind_default := ""; OpKind_Get := Get |}.

(** Memory holding two well-formed names and one without a namespace. *)
Definition memory : gmap N string :=
  {[ 16%N := "lazy_tensors::select"; 48%N := "lazy_tensors::cast";
     80%N := "ltc_select" ]}.

Definition world0 : @World host := @mkWorld host memory [] [].

(** The registry before any name is interned. *)
Definition no_names : @Registry host := [].

(** The kind of a qualified name, and the exception for a refused one. *)
Definition kind (s : string) : @OpKind host := s.

Definition refused (s : string) : @Failure host := "no namespace: " +:+ s.

End TestHost.

(** A registry that is not ready at first: its state is the number of
    lookups that will still be refused. *)
Module FlakyHost.

Definition Get (s : string) (r : nat) : nat * (string + string) :=
  match r with
  | 0 => (0, inr s)
  | S k => (k, inl "registry not ready")
  end.

Definition host : LazyHost :=
  {| OpKind := string; Failure := string; Registry := nat;
     OpKind_default := ""; OpKind_Get := Get |}.

Definition world1 : @World host :=
  @mkWorld host {[ 16%N := "lazy_tensors::select" ]} 1 [].

Definition ready : @Registry host := 0.

Definition not_ready : @Failure host := "registry not ready".

Definition kind (s : string) : @OpKind host := s.

End FlakyHost.

(** A lookup-or-register registry that numbers the names: its state is
    the list of the names registered so far, a kind is the position of
    its name in that list. A name without a namespace is refused; a name
    seen for the first time is put at the end of the list. *)
Module NumberingHost.

Fixpoint index_of (s : string) (r : list string) : option nat :=
  match r with
  | [] => None
  | x :: r' => if bool_decide (x = s) then Some 0 else S <$> index_of s r'
  end.

Definition Get (s : string) (r : list string) : list string * (string + nat) :=
  if TestHost.has_namespace s then
    match index_of s r with
    | Some i => (r, inr i)
    | None => (r ++ [s], inr (length r))
    end
  else (r, inl ("no namespace: " +:+ s)%string).

Definition host : LazyHost :=
  {| OpKind := nat; Failure := string; Registry := list string;
     OpKind_default := 0; OpKind_Get := Get |}.

(** Memory with two arrays that hold the same name and one that holds
    another; a registry that already knows a third name. *)
Definition memory : gmap N string :=
  {[ 16%N := "lazy_tensors::select"; 48%N := "lazy_tensors::cast";
     112%N := "lazy_tensors::select" ]}.

Definition world0 : @World host :=
  @mkWorld host memory ["lazy_tensors::nms"] [].

Definition kind (i : nat) : @OpKind host := i.

End NumberingHost.

(** * Properties *)

Section Counting.
Context {A : Type}.
Implicit Types (f : A → bool) (l k : list A).

Lemma count_if_app f l k : count_if f (l ++ k) = count_if f l + count_if f k.
Proof. induction l as [|x l IH]; simpl; [done|]. rewrite IH. lia. Qed.

End Counting.

Section Sequential.
Context `{Host : LazyHost}.

Local Ltac run_method :=
  unfold resolve, operator_star, operator_OpKind, get, copy_from, call_once,
    lambda, call_Get, assign_op_kind, mbind, method_bind, mret, method_ret;
  simpl.

(** What one call does, by the state of the flag, the memory behind
    [name_] and the registry's answer. *)
Lemma resolve_cases (a : accessor) (h : OpKindWrapper) (w : World) :
  resolve a h w =
  match once_ h with
  | once_done => (h, w, Returned (op_kind_ h))
  | once_active => (h, w, Undefined)
  | once_init =>
      match chars w !! name_ h with
      | None => (set_once once_active h, w, Undefined)
      | Some s =>
          match OpKind_Get s (registry w) with
          | (r', inr v) =>
              ({| name_ := name_ h; op_kind_ := v; once_ := once_done |},
               record (EvAssign v) (record (EvGet s (inr v)) (set_registry r' w)),
               Returned v)
          | (r', inl e) =>
              (h, record (EvGet s (inl e)) (set_registry r' w), Thrown e)
          end
      end
  end.
Proof.
  destruct h as [p k f]; destruct a; run_method;
    (destruct f; simpl; try reflexivity;
     destruct (chars w !! p) as [s|]; simpl; try reflexivity;
     destruct (OpKind_Get s (registry w)) as [r' [e|v]]; reflexivity).
Qed.

Lemma resolve_all_done (calls : list accessor) (h : OpKindWrapper) (w : World) :
  once_ h = once_done →
  resolve_all calls h w =
    (h, w, replicate (length calls) (Returned (op_kind_ h))).
Proof.
  intros Hd. induction calls as [|a rest IH]; simpl; [done|].
  rewrite resolve_cases, Hd, IH. done.
Qed.

Lemma answers_snoc s r l r1 x r2 :
  answers s r l r1 → OpKind_Get s r1 = (r2, x) → answers s r (l ++ [x]) r2.
Proof.
  revert r. induction l as [|y l IH]; simpl; intros r.
  - intros ->. eauto.
  - intros (r' & Hy & Hl) Hx. eauto.
Qed.

Lemma get_result_failed s es :
  omap get_result (failed_lookups s es) = inl <$> es.
Proof. unfold failed_lookups. induction es as [|e es IH]; csimpl; [done|]. by rewrite IH. Qed.

(** The shape of any sequence of calls on a handle whose flag is still
    clear: the calls throw as long as the lookup throws, the first lookup
    that returns resolves the handle, and all calls from then on return
    the cached kind without a lookup. *)
Lemma resolve_all_init (calls : list accessor) :
  ∀ (h : OpKindWrapper) (w : World) (s : string),
    once_ h = once_init →
    chars w !! name_ h = Some s →
    ∃ es n tail h' w',
      resolve_all calls h w =
        (h', w', (Thrown <$> es) ++ replicate n (Returned (op_kind_ h'))) ∧
      length es + n = length calls ∧
      history w' = history w ++ failed_lookups s es ++ tail ∧
      chars w' = chars w ∧
      name_ h' = name_ h ∧
      answers s (registry w) (omap get_result (failed_lookups s es ++ tail))
        (registry w') ∧
      ((n = 0 ∧ tail = [] ∧ h' = h) ∨
       (0 < n ∧ tail = resolution s (op_kind_ h') ∧ once_ h' = once_done)).
Proof.
  induction calls as [|a rest IH]; intros h w s Hi Hs.
  - exists [], 0, [], h, w. simpl. rewrite app_nil_r. split_and!; auto.
  - simpl. rewrite resolve_cases, Hi, Hs.
    destruct (OpKind_Get s (registry w)) as [r' [e|v]] eqn:HG.
    + destruct (IH h (record (EvGet s (inl e)) (set_registry r' w)) s Hi Hs)
        as (es & n & tail & h' & w' & -> & Hlen & Hh & Hc & Hn & Ha & Hcase).
      exists (e :: es), n, tail, h', w'. simpl in *.
      split_and!; auto; try lia.
      * rewrite Hh, <- !app_assoc. done.
      * eauto.
    + rewrite resolve_all_done by done. simpl.
      exists [], (S (length rest)), (resolution s v),
        {| name_ := name_ h; op_kind_ := v; once_ := once_done |},
        (record (EvAssign v) (record (EvGet s (inr v)) (set_registry r' w))).
      simpl. split_and!; auto.
      * rewrite <- app_assoc. done.
      * eauto.
      * right. split_and!; auto. lia.
Qed.

Lemma count_failed_lookups s es :
  count_if is_get (failed_lookups s es) = length es ∧
  count_if is_get_ok (failed_lookups s es) = 0 ∧
  count_if is_get_fail (failed_lookups s es) = length es ∧
  count_if is_assign (failed_lookups s es) = 0.
Proof.
  unfold failed_lookups. induction es as [|e es (?&?&?&?)]; csimpl; [done|].
  split_and!; congruence.
Qed.

Lemma count_thrown (es : list Failure) (n : nat) (v : OpKind) :
  count_if is_thrown ((Thrown <$> es) ++ replicate n (Returned v)) = length es ∧
  count_if is_returned ((Thrown <$> es) ++ replicate n (Returned v)) = n ∧
  count_if is_undefined ((Thrown <$> es) ++ replicate n (Returned v)) = 0.
Proof.
  rewrite !count_if_app.
  assert (Hr : ∀ f : outcome OpKind → bool,
    count_if f (replicate n (Returned v)) =
      if f (Returned v) then n else 0).
  { intros f. induction n as [|n IH]; simpl; [by destruct (f _)|].
    rewrite IH. by destruct (f _). }
  rewrite !Hr. simpl.
  induction es as [|e es (?&?&?)]; csimpl; [done|]. split_and!; lia.
Qed.

(** C1 (memoization), in the form that holds of the code. For every
    sequence of calls of the accessors on one handle, made from its
    construction on: at most one lookup returns normally, and there is
    one exactly when some call returned; every lookup that throws ends
    one call by that exception, so that the lookups number the calls that
    threw plus that one; every call returns or throws; no call returns
    before a later one throws; and all calls that return give the same
    kind. A throwing lookup is thus repeated by the next call, and once a
    lookup has returned none is made again. *)
Theorem memoization (p : ptr) (s : string) (w : World) (calls : list accessor) :
  chars w !! p = Some s →
  let '(h, w0) := construct p w in
  let '(h', w', rs) := resolve_all calls h w0 in
  ∃ new,
    history w' = history w ++ new ∧
    count_if is_get_ok new = (if existsb is_returned rs then 1 else 0) ∧
    count_if is_get_fail new = count_if is_thrown rs ∧
    count_if is_get new =
      count_if is_thrown rs + (if existsb is_returned rs then 1 else 0) ∧
    count_if is_undefined rs = 0 ∧
    (∀ i j e, i < j → rs !! j = Some (Thrown e) →
       ∃ e', rs !! i = Some (Thrown e')) ∧
    (∀ i v, rs !! i = Some (Returned v) → v = op_kind_ h').
Proof.
  intros Hs. simpl.
  destruct (resolve_all_init calls
              {| name_ := p; op_kind_ := OpKind_default; once_ := once_init |}
              w s eq_refl Hs)
    as (es & n & tail & h' & w' & -> & Hlen & Hh & _ & _ & _ & Hcase).
  exists (failed_lookups s es ++ tail). split; [done|].
  destruct (count_thrown es n (op_kind_ h')) as (-> & _ & ->).
  rewrite !count_if_app.
  destruct (count_failed_lookups s es) as (-> & -> & -> & _).
  assert (Hex : existsb is_returned
            ((Thrown <$> es) ++ replicate n (Returned (op_kind_ h')))
          = if n is 0 then false else true).
  { rewrite existsb_app.
    replace (existsb is_returned (Thrown <$> es)) with false
      by (clear; induction es; csimpl; auto).
    by destruct n. }
  rewrite Hex.
  assert (Htail : count_if is_get_ok tail = (if n is 0 then 0 else 1) ∧
                  count_if is_get_fail tail = 0 ∧
                  count_if is_get tail = (if n is 0 then 0 else 1)).
  { destruct Hcase as [(-> & -> & _)|(Hn & -> & _)]; [done|].
    destruct n; [lia|done]. }
  destruct Htail as (-> & -> & ->).
  split_and!.
  - by destruct n.
  - lia.
  - by destruct n.
  - done.
  - intros i j e Hij Hj.
    destruct (decide (i < length es)) as [Hi|Hi].
    + rewrite lookup_app_l by (by rewrite length_fmap).
      rewrite list_lookup_fmap.
      destruct (lookup_lt_is_Some_2 es i Hi) as [e' ->]. eauto.
    + rewrite lookup_app_r in Hj by (rewrite length_fmap; lia).
      apply lookup_replicate in Hj as [? _]. done.
  - intros i v Hi.
    apply lookup_app_Some in Hi as [Hi|[_ Hi]].
    + rewrite list_lookup_fmap in Hi. by destruct (es !! i).
    + apply lookup_replicate in Hi as [? _]. congruence.
Qed.

End Sequential.

Section Concurrent.
Context `{Host : LazyHost}.
Implicit Types (st : state) (th : thread) (l : list thread).

(** *** Pools *)

Lemma lookup_insert_cases l t th' i thi :
  <[t := th']> l !! i = Some thi →
  (i = t ∧ thi = th') ∨ (i ≠ t ∧ l !! i = Some thi).
Proof.
  intros H. apply list_lookup_insert_Some in H as [(-> & -> & _)|[? ?]]; auto.
Qed.

Lemma sum_list_insert (f : thread → nat) l t th th' :
  l !! t = Some th →
  sum_list (f <$> <[t := th']> l) + f th = sum_list (f <$> l) + f th'.
Proof.
  revert t. induction l as [|x l IH]; intros [|t] Ht; simplify_eq/=; [lia|].
  specialize (IH t Ht). lia.
Qed.

Lemma existsb_false {A} (f : A → bool) (l : list A) :
  (∀ i x, l !! i = Some x → f x = false) → existsb f l = false.
Proof.
  induction l as [|x l IH]; intros H; simpl; [done|].
  rewrite (H 0 x eq_refl), IH; [done|]. intros i y Hy. exact (H (S i) y Hy).
Qed.

Lemma forallb_false {A} (f : A → bool) (l : list A) :
  forallb f l = false → ∃ i x, l !! i = Some x ∧ f x = false.
Proof.
  induction l as [|x l IH]; simpl; [done|].
  destruct (f x) eqn:Hx; simpl.
  - intros H. destruct (IH H) as (i & y & Hi & Hy). by exists (S i), y.
  - intros _. by exists 0, x.
Qed.

Lemma forallb_true {A} (f : A → bool) (l : list A) i x :
  forallb f l = true → l !! i = Some x → f x = true.
Proof.
  rewrite forallb_forall. intros H Hi. apply H.
  apply list_elem_of_In. by eapply list_elem_of_lookup_2.
Qed.

Lemma exclusive_insert l t th th' :
  exclusive l → l !! t = Some th →
  (is_active th' = true →
     is_active th = true ∨ ∀ j thj, l !! j = Some thj → is_active thj = false) →
  exclusive (<[t := th']> l).
Proof.
  intros Hex Ht Hnew i j thi thj Hi Hj Ai Aj.
  apply lookup_insert_cases in Hi as [[-> ->]|[Hit Hi]];
    apply lookup_insert_cases in Hj as [[-> ->]|[Hjt Hj]]; auto.
  - destruct (Hnew Ai) as [At|Hnone].
    + symmetry. eauto.
    + rewrite (Hnone j thj Hj) in Aj. done.
  - destruct (Hnew Aj) as [At|Hnone].
    + eauto.
    + rewrite (Hnone i thi Hi) in Ai. done.
  - eauto.
Qed.

(** *** Threads and the invariant *)

Lemma thread_inv_active s h tail th :
  thread_inv s h tail th → is_active th = true → once_ h = once_active.
Proof.
  unfold thread_inv, is_active.
  destruct (at_ th); intros [Hp _] Ha; try done; tauto.
Qed.

(** A thread outside the active region, seen while the flag is not done,
    constrains neither handle nor history. *)
Lemma thread_inv_bystander s h tail th h' tail' :
  thread_inv s h tail th → is_active th = false → once_ h ≠ once_done →
  thread_inv s h' tail' th.
Proof.
  unfold thread_inv, is_active. intros [Hp Hr] Ha Hd. split.
  - destruct (at_ th); try done.
  - eapply Forall_impl; [exact Hr|].
    intros [v|e|]; simpl; [intros [? _]|..]; done.
Qed.

Lemma thread_inv_move s h tail th p :
  Forall (result_ok h) (results th) →
  match p with
  | Idle | AtCallOnce => True
  | AtLookup =>
      once_ h = once_active ∧ tail = [] ∧ op_kind_ h = OpKind_default
  | AtStore v | Storing v =>
      once_ h = once_active ∧ tail = [EvGet s (inr v)] ∧
      op_kind_ h = OpKind_default
  | AtLeave => once_ h = once_active ∧ tail = resolution s (op_kind_ h)
  | AtReturn => once_ h = once_done
  end →
  thread_inv s h tail (move p th).
Proof. intros Hr Hp. split; [exact Hp|exact Hr]. Qed.

Lemma thread_inv_finish s h tail th r :
  Forall (result_ok h) (results th) → result_ok h r →
  thread_inv s h tail (finish r th).
Proof.
  intros Hr Hp. split; [done|]. simpl. apply Forall_app. auto.
Qed.

Lemma nthrown_insert l t th th' :
  l !! t = Some th → nthrown th' = nthrown th →
  sum_list (nthrown <$> <[t := th']> l) = sum_list (nthrown <$> l).
Proof. intros Ht Hn. pose proof (sum_list_insert nthrown l t th th' Ht). lia. Qed.

Lemma nthrown_finish th r :
  nthrown (finish r th) = nthrown th + (if is_thrown r then 1 else 0).
Proof. unfold nthrown. simpl. rewrite count_if_app. simpl. lia. Qed.

Lemma results_bystander h h' (rs : list (outcome OpKind)) :
  Forall (result_ok h) rs → once_ h ≠ once_done → Forall (result_ok h') rs.
Proof.
  intros Hr Hd. eapply Forall_impl; [exact Hr|].
  intros [v|e|]; simpl; [intros [? _]|..]; done.
Qed.

Lemma storing_active th : is_storing th = true → is_active th = true.
Proof. unfold is_storing, is_active. by destruct (at_ th). Qed.

Lemma others_inactive l t th :
  exclusive l → l !! t = Some th → is_active th = true →
  ∀ j thj, l !! j = Some thj → j ≠ t → is_active thj = false.
Proof.
  intros Hex Ht At j thj Hj Hne.
  destruct (is_active thj) eqn:Aj; [|done].
  destruct Hne. eauto.
Qed.

Lemma all_inactive s h tail l :
  (∀ i th, l !! i = Some th → thread_inv s h tail th) →
  once_ h ≠ once_active →
  ∀ j thj, l !! j = Some thj → is_active thj = false.
Proof.
  intros Hth Hf j thj Hj. destruct (is_active thj) eqn:Aj; [|done].
  destruct Hf. eapply thread_inv_active; eauto.
Qed.

Lemma none_storing s h tail l t th :
  (∀ i th, l !! i = Some th → thread_inv s h tail th) →
  exclusive l → l !! t = Some th → is_storing th = false →
  is_active th = true ∨ once_ h ≠ once_active →
  existsb is_storing l = false.
Proof.
  intros Hth Hex Ht Hst Hcase. apply existsb_false. intros j thj Hj.
  destruct (is_storing thj) eqn:Sj; [|done].
  pose proof (storing_active _ Sj) as Aj. destruct Hcase as [At|Hf].
  - assert (j = t) as -> by (eapply Hex; eauto). simplify_eq. congruence.
  - by rewrite (all_inactive s h tail l Hth Hf j thj Hj) in Aj.
Qed.

Lemma failed_lookups_snoc s es e :
  failed_lookups s (es ++ [e]) = failed_lookups s es ++ [EvGet s (inl e)].
Proof. unfold failed_lookups. by rewrite fmap_app. Qed.

(** Every step keeps the invariant. *)
Lemma step_inv s r0 h0 t st st' :
  inv s r0 h0 st → step t st = Some st' → inv s r0 h0 st'.
Proof.
  intros (es & tail & Hh & Hlen & Hs & Hans & Hth & Hex & Hact & Hinit & Hdone)
    Hstep.
  unfold step in Hstep.
  destruct (pool st !! t) as [th|] eqn:Ht; simpl in Hstep; [|done].
  destruct (Hth t th Ht) as [Hp Hr].
  assert (Hlt : t < length (pool st)) by (by eapply lookup_lt_Some).
  destruct st as [h w l]; simpl in *.
  destruct (at_ th) eqn:Hat.
  - (* Idle *)
    destruct (todo th) as [|k] eqn:Hk; [done|]. simplify_eq.
    exists es, tail; simpl. split_and!; auto.
    + rewrite Hlen. symmetry. by eapply nthrown_insert.
    + intros i thi Hi. apply lookup_insert_cases in Hi as [[-> ->]|[_ Hi]]; eauto.
      split; done.
    + eapply exclusive_insert; eauto; done.
    + intros Ha. destruct (Hact Ha) as (i & thi & Hi & Ai).
      exists i, thi. split; [|done].
      rewrite list_lookup_insert_ne; [done|]. intros ->.
      unfold is_active in Ai. simplify_eq. by rewrite Hat in Ai.
  - (* AtCallOnce *)
    destruct (once_ h) eqn:Hf; simplify_eq.
    + destruct (Hinit eq_refl) as [-> Hk].
      assert (Hin : ∀ j thj, l !! j = Some thj → is_active thj = false).
      { eapply all_inactive; [exact Hth|]. by rewrite Hf. }
      exists es, []; simpl. split_and!; auto; try done; try (by rewrite Hf).
      * rewrite Hlen. symmetry. by eapply nthrown_insert.
      * intros i thi Hi.
        apply lookup_insert_cases in Hi as [[-> ->]|[_ Hi]].
        -- apply thread_inv_move; [|done].
           eapply results_bystander; [exact Hr|]. by rewrite Hf.
        -- eapply thread_inv_bystander; eauto. by rewrite Hf.
      * eapply exclusive_insert; eauto.
      * intros _. exists t, (move AtLookup th).
        by rewrite list_lookup_insert_eq.
    + exists es, tail; simpl. split_and!; auto; try done; try (by rewrite Hf).
      * rewrite Hlen. symmetry. by eapply nthrown_insert.
      * intros i thi Hi.
        apply lookup_insert_cases in Hi as [[-> ->]|[_ Hi]]; eauto.
        by apply thread_inv_move.
      * eapply exclusive_insert; eauto; done.
  - (* AtLookup *)
    destruct Hp as (Hf & -> & Hk).
    assert (At : is_active th = true) by (unfold is_active; by rewrite Hat).
    pose proof (others_inactive l t th Hex Ht At) as Hin.
    unfold call_Get in Hstep. rewrite Hs in Hstep.
    destruct (OpKind_Get s (registry w)) as [r' [e|v]] eqn:HG;
      simpl in Hstep; simplify_eq.
    + exists (es ++ [e]), []; simpl. split_and!; auto; try done; try (by rewrite Hf).
      * rewrite Hh, failed_lookups_snoc, !app_nil_r, <- app_assoc. done.
      * rewrite length_app. simpl.
        pose proof (sum_list_insert nthrown l t th (finish (Thrown e) th) Ht).
        rewrite nthrown_finish in *. simpl in *. lia.
      * rewrite failed_lookups_snoc, !app_nil_r, omap_app in *.
        eapply answers_snoc; eauto.
      * intros i thi Hi.
        apply lookup_insert_cases in Hi as [[-> ->]|[Hne Hi]].
        -- apply thread_inv_finish; [|done].
           eapply results_bystander; [exact Hr|]. by rewrite Hf.
        -- eapply thread_inv_bystander; eauto. by rewrite Hf.
      * eapply exclusive_insert; eauto; done.
    + exists es, [EvGet s (inr v)]; simpl. split_and!; auto; try done; try (by rewrite Hf).
      * rewrite Hh, !app_nil_r, <- app_assoc. done.
      * rewrite Hlen. symmetry. by eapply nthrown_insert.
      * rewrite !app_nil_r, omap_app in *.
        eapply answers_snoc; eauto.
      * intros i thi Hi.
        apply lookup_insert_cases in Hi as [[-> ->]|[Hne Hi]].
        -- by apply thread_inv_move.
        -- eapply thread_inv_bystander; eauto. by rewrite Hf.
      * eapply exclusive_insert; eauto.
      * intros _. exists t, (move (AtStore v) th).
        by rewrite list_lookup_insert_eq.
  - (* AtStore *)
    destruct Hp as (Hf & -> & Hk).
    assert (At : is_active th = true) by (unfold is_active; by rewrite Hat).
    rewrite (none_storing s h _ l t th Hth Hex Ht) in Hstep; auto;
      [|unfold is_storing; by rewrite Hat].
    simplify_eq.
    exists es, [EvGet s (inr v)]; simpl. split_and!; auto; try done; try (by rewrite Hf).
    + rewrite Hlen. symmetry. by eapply nthrown_insert.
    + intros i thi Hi.
      apply lookup_insert_cases in Hi as [[-> ->]|[Hne Hi]]; eauto.
      by apply thread_inv_move.
    + eapply exclusive_insert; eauto.
    + intros _. exists t, (move (Storing v) th).
      by rewrite list_lookup_insert_eq.
  - (* Storing *)
    destruct Hp as (Hf & -> & Hk).
    assert (At : is_active th = true) by (unfold is_active; by rewrite Hat).
    pose proof (others_inactive l t th Hex Ht At) as Hin.
    simplify_eq.
    exists es, (resolution s v); simpl. split_and!; auto; try done; try (by rewrite Hf).
    + rewrite Hh, <- !app_assoc. done.
    + rewrite Hlen. symmetry. by eapply nthrown_insert.
    + rewrite omap_app in *. exact Hans.
    + intros i thi Hi.
      apply lookup_insert_cases in Hi as [[-> ->]|[Hne Hi]].
      * apply thread_inv_move; [|done].
        eapply results_bystander; [exact Hr|]. by rewrite Hf.
      * eapply thread_inv_bystander; eauto. by rewrite Hf.
    + eapply exclusive_insert; eauto.
    + intros _. exists t, (move AtLeave th).
      by rewrite list_lookup_insert_eq.
  - (* AtLeave *)
    destruct Hp as (Hf & ->).
    assert (At : is_active th = true) by (unfold is_active; by rewrite Hat).
    pose proof (others_inactive l t th Hex Ht At) as Hin.
    simplify_eq.
    exists es, (resolution s (op_kind_ h)); simpl. split_and!; auto; try done; try (by rewrite Hf).
    + rewrite Hlen. symmetry. by eapply nthrown_insert.
    + intros i thi Hi.
      apply lookup_insert_cases in Hi as [[-> ->]|[Hne Hi]].
      * apply thread_inv_move; [|done].
        eapply results_bystander; [exact Hr|]. by rewrite Hf.
      * eapply thread_inv_bystander; eauto. by rewrite Hf.
    + eapply exclusive_insert; eauto; done.
  - (* AtReturn *)
    rewrite (none_storing s h tail l t th Hth Hex Ht) in Hstep;
      [|unfold is_storing; by rewrite Hat|right; by rewrite Hp].
    simplify_eq.
    exists es, tail; simpl. split_and!; auto; try done; try (by rewrite Hf).
    + rewrite Hlen. symmetry. eapply nthrown_insert; eauto.
      rewrite nthrown_finish. simpl. lia.
    + intros i thi Hi.
      apply lookup_insert_cases in Hi as [[-> ->]|[Hne Hi]]; eauto.
      by apply thread_inv_finish.
    + eapply exclusive_insert; eauto; done.
    + by rewrite Hp.
Qed.

(** What the invariant says about the events since the start, the cache
    and the outcomes: after the failed lookups the history is empty while
    no lookup has returned, holds the lookup while the kind is not yet
    stored, and holds lookup and assignment from then on. *)
Lemma inv_view s r0 h0 st :
  inv s r0 h0 st →
  ∃ es tail,
    since (length h0) st = failed_lookups s es ++ tail ∧
    length es = sum_list (nthrown <$> pool st) ∧
    answers s r0 ((inl <$> es) ++ omap get_result tail) (registry (world st)) ∧
    ((tail = [] ∧ op_kind_ (handle st) = OpKind_default ∧
      once_ (handle st) ≠ once_done) ∨
     (∃ v, tail = [EvGet s (inr v)] ∧ op_kind_ (handle st) = OpKind_default ∧
      once_ (handle st) = once_active) ∨
     (tail = resolution s (op_kind_ (handle st)) ∧
      once_ (handle st) ≠ once_init)) ∧
    (∀ t th, pool st !! t = Some th →
       thread_inv s (handle st) tail th).
Proof.
  intros (es & tail & Hh & Hlen & Hs & Hans & Hth & Hex & Hact & Hinit & Hdone).
  exists es, tail. split_and!; auto.
  - unfold since. by rewrite Hh, drop_app_length.
  - by rewrite omap_app, get_result_failed in Hans.
  - destruct (once_ (handle st)) eqn:Hf.
    + left. destruct (Hinit eq_refl). done.
    + destruct (Hact eq_refl) as (i & th & Hi & Ai).
      destruct (Hth i th Hi) as [Hp _]. unfold is_active in Ai.
      destruct (at_ th); try done.
      * left. by destruct Hp as (_ & ? & ?).
      * right; left. destruct Hp as (_ & ? & ?). eauto.
      * right; left. destruct Hp as (_ & ? & ?). eauto.
      * right; right. by destruct Hp as (_ & ?).
    + right; right. split; [auto|done].
Qed.

Lemma spawn_inv (p : ptr) (s : string) (w : World) (todos : list nat) :
  chars w !! p = Some s →
  inv s (registry w) (history w) (spawn p w todos).
Proof.
  intros Hs. exists [], []. unfold spawn; simpl.
  assert (Hidle : ∀ i th,
    ((λ k, {| at_ := Idle; todo := k; results := [] |}) <$> todos) !! i
      = Some th → at_ th = Idle ∧ results th = []).
  { intros i th Hi. rewrite list_lookup_fmap in Hi.
    destruct (todos !! i); simplify_eq/=. done. }
  split_and!; auto; try done.
  - by rewrite app_nil_r.
  - clear. induction todos as [|k todos IH]; [done|]. exact IH.
  - intros i th Hi. destruct (Hidle i th Hi) as [Ha Hr].
    unfold thread_inv. rewrite Ha, Hr. done.
  - intros i j thi thj Hi _ Ai _. destruct (Hidle i thi Hi) as [Ha _].
    unfold is_active in Ai. by rewrite Ha in Ai.
Qed.

Lemma run_inv s r0 h0 sched st :
  inv s r0 h0 st → inv s r0 h0 (run sched st).
Proof.
  revert st. induction sched as [|t sched IH]; intros st Hinv; [done|].
  simpl. apply IH. destruct (step t st) as [st'|] eqn:Hstep; simpl; [|done].
  by eapply step_inv.
Qed.

(** *** Termination and absence of deadlock *)

Lemma step_fuel t st st' : step t st = Some st' → fuel st' < fuel st.
Proof.
  unfold step, fuel. intros Hstep.
  destruct (pool st !! t) as [th|] eqn:Ht; simpl in Hstep; [|done].
  assert (Hw : ∀ h' w' th', weight th' < weight th →
    sum_list (weight <$>
      pool {| handle := h'; world := w'; pool := <[t := th']> (pool st) |})
    < sum_list (weight <$> pool st)).
  { intros h' w' th' Hlt. simpl.
    pose proof (sum_list_insert weight (pool st) t th th' Ht). lia. }
  unfold weight in Hw. simpl in Hstep.
  destruct (at_ th) eqn:Hat;
    [destruct (todo th) eqn:Hk
    |destruct (once_ (handle st))
    |destruct (call_Get (handle st) (world st)) as [[h' w'] [v|e|]]
    |destruct (existsb is_storing (pool st))
    | |
    |destruct (existsb is_storing (pool st))];
    simplify_eq; apply Hw; cbn [at_ todo rank move finish]; lia.
Qed.

(** A thread can move unless it has nothing left to do or waits at
    [std::call_once] for the active execution. *)
Lemma step_enabled t st th :
  pool st !! t = Some th →
  (at_ th = Idle → todo th ≠ 0) →
  (at_ th = AtCallOnce → once_ (handle st) ≠ once_active) →
  is_Some (step t st).
Proof.
  intros Ht Hidle Hwait. unfold step. rewrite Ht. simpl.
  destruct (at_ th) eqn:Hat.
  - destruct (todo th); [by destruct Hidle|]. eauto.
  - destruct (once_ (handle st)); eauto. by destruct Hwait.
  - destruct (call_Get (handle st) (world st)) as [[h' w'] [v|e|]]; eauto.
  - destruct (existsb is_storing (pool st)); eauto.
  - eauto.
  - eauto.
  - destruct (existsb is_storing (pool st)); eauto.
Qed.

Lemma progress s r0 h0 st :
  inv s r0 h0 st → all_finished st = false → ∃ t st', step t st = Some st'.
Proof.
  intros (es & tail & _ & _ & _ & _ & Hth & _ & Hact & _ & _) Hnf.
  destruct (decide (once_ (handle st) = once_active)) as [Ha|Ha].
  - destruct (Hact Ha) as (t & th & Ht & At). exists t.
    apply (step_enabled t st th Ht); intros Hat;
      unfold is_active in At; by rewrite Hat in At.
  - destruct (forallb_false _ _ Hnf) as (t & th & Ht & Hf). exists t.
    apply (step_enabled t st th Ht); [|done].
    unfold is_finished in Hf. intros Hat Hk. by rewrite Hat, Hk in Hf.
Qed.

(** From every state that satisfies the invariant some schedule brings
    all threads to the end of their calls. *)
Lemma can_finish s r0 h0 st :
  inv s r0 h0 st → ∃ sched, all_finished (run sched st) = true.
Proof.
  remember (fuel st) as n eqn:Hn. revert st Hn.
  induction (lt_wf n) as [n _ IH]. intros st -> Hinv.
  destruct (all_finished st) eqn:Hfin.
  - by exists [].
  - destruct (progress s r0 h0 st Hinv Hfin) as (t & st' & Hstep).
    destruct (IH (fuel st') (step_fuel t st st' Hstep) st' eq_refl) as [sched Hs].
    { by eapply step_inv. }
    exists (t :: sched). simpl. by rewrite Hstep.
Qed.

(** *** What no step changes *)

Lemma step_name t st st' :
  step t st = Some st' →
  name_ (handle st') = name_ (handle st) ∧
  chars (world st') = chars (world st) ∧
  length (pool st') = length (pool st).
Proof.
  unfold step. intros Hstep.
  destruct (pool st !! t) as [th|] eqn:Ht; simpl in Hstep; [|done].
  unfold call_Get in Hstep.
  destruct (at_ th);
    [destruct (todo th)
    |destruct (once_ (handle st))
    |destruct (chars (world st) !! name_ (handle st)) as [s|];
       [destruct (OpKind_Get s (registry (world st))) as [r' [e|v]]|]
    |destruct (existsb is_storing (pool st))
    | |
    |destruct (existsb is_storing (pool st))];
    simplify_eq; simpl; by rewrite length_insert.
Qed.

Lemma run_name sched st :
  name_ (handle (run sched st)) = name_ (handle st) ∧
  chars (world (run sched st)) = chars (world st) ∧
  length (pool (run sched st)) = length (pool st).
Proof.
  revert st. induction sched as [|t sched IH]; intros st; [done|]. simpl.
  destruct (IH (default st (step t st))) as (-> & -> & ->).
  destruct (step t st) as [st'|] eqn:Hstep; [|done].
  exact (step_name t st st' Hstep).
Qed.

(** Each thread makes the calls it was given: calls ended, the call under
    way and calls still to make add up to the same number at all times. *)
Lemma step_budget t st st' :
  step t st = Some st' → budget <$> pool st' = budget <$> pool st.
Proof.
  unfold step. intros Hstep.
  destruct (pool st !! t) as [th|] eqn:Ht; simpl in Hstep; [|done].
  assert (Hb : ∀ th', budget th' = budget th →
    budget <$> <[t := th']> (pool st) = budget <$> pool st).
  { intros th' Hb. rewrite list_fmap_insert, Hb.
    apply list_insert_id. by rewrite list_lookup_fmap, Ht. }
  unfold budget, entered in Hb.
  destruct (at_ th) eqn:Hat;
    [destruct (todo th) eqn:Hk
    |destruct (once_ (handle st))
    |destruct (call_Get (handle st) (world st)) as [[h' w'] [v|e|]]
    |destruct (existsb is_storing (pool st))
    | |
    |destruct (existsb is_storing (pool st))];
    simplify_eq; simpl; apply Hb; simpl; rewrite ?length_app; simpl; lia.
Qed.

Lemma run_budget sched st :
  budget <$> pool (run sched st) = budget <$> pool st.
Proof.
  revert st. induction sched as [|t sched IH]; intros st; [done|]. simpl.
  rewrite IH. destruct (step t st) as [st'|] eqn:Hstep; [|done].
  exact (step_budget t st st' Hstep).
Qed.

(** Once the kind is stored, no step touches the cache or the history:
    no lookup and no assignment is ever made again. *)
Lemma step_after_assign s r0 h0 t st st' :
  inv s r0 h0 st →
  count_if is_assign (since (length h0) st) = 1 →
  step t st = Some st' →
  op_kind_ (handle st') = op_kind_ (handle st) ∧
  history (world st') = history (world st).
Proof.
  intros Hinv Hone Hstep.
  destruct (inv_view _ _ _ _ Hinv) as (es & tail & Hnew & _ & _ & Hcase & Hth).
  rewrite Hnew, count_if_app in Hone.
  destruct (count_failed_lookups s es) as (_ & _ & _ & Hz). rewrite Hz in Hone.
  assert (Htail : tail = resolution s (op_kind_ (handle st))).
  { destruct Hcase as [(-> & _)|[(v & -> & _)|(-> & _)]]; done. }
  unfold step in Hstep.
  destruct (pool st !! t) as [th|] eqn:Ht; simpl in Hstep; [|done].
  destruct (Hth t th Ht) as [Hp _]. rewrite Htail in Hp.
  destruct (at_ th);
    [destruct (todo th)
    |destruct (once_ (handle st))
    |destruct Hp as (_ & ? & _)
    |destruct Hp as (_ & ? & _)
    |destruct Hp as (_ & ? & _)
    |
    |destruct (existsb is_storing (pool st))];
    by simplify_eq.
Qed.

Lemma since_step (n : nat) st st' :
  history (world st') = history (world st) → since n st' = since n st.
Proof. unfold since. by intros ->. Qed.

Lemma run_after_assign s r0 h0 sched st :
  inv s r0 h0 st →
  count_if is_assign (since (length h0) st) = 1 →
  op_kind_ (handle (run sched st)) = op_kind_ (handle st) ∧
  history (world (run sched st)) = history (world st).
Proof.
  revert st. induction sched as [|t sched IH]; intros st Hinv Hone; [done|].
  simpl. destruct (step t st) as [st'|] eqn:Hstep; simpl; [|auto].
  destruct (step_after_assign _ _ _ _ _ _ Hinv Hone Hstep) as [Hk Hh].
  rewrite <- Hk, <- Hh. apply IH; [by eapply step_inv|].
  by rewrite (since_step _ st st' Hh).
Qed.

(** *** One thread alone

    A single thread that makes one call goes through [get()] in seven
    steps, and ends as the sequential reading of the conversion operator
    says. *)
Lemma solo_run_is_resolve (h : OpKindWrapper) (w : World)
    (rs : list (outcome OpKind)) :
  once_ h ≠ once_active →
  run (replicate 7 0)
    {| handle := h; world := w;
       pool := [{| at_ := Idle; todo := 1; results := rs |}] |} =
  let '(h', w', r) := resolve Convert h w in
  {| handle := h'; world := w';
     pool := [{| at_ := Idle; todo := 0; results := rs ++ [r] |}] |}.
Proof.
  intros Ha. rewrite resolve_cases.
  change (replicate 7 0) with [0; 0; 0; 0; 0; 0; 0].
  destruct h as [p k f]. cbn [once_ name_ op_kind_] in *.
  assert (Hcons : ∀ t sched st,
    run (t :: sched) st = run sched (default st (step t st))) by done.
  destruct f; [|done|].
  - destruct (chars w !! p) as [s|] eqn:Hs.
    + destruct (OpKind_Get s (registry w)) as [r' [e|v]] eqn:HG;
        repeat (rewrite Hcons; unfold step at 1, call_Get; cbn -[run];
                rewrite ?Hs, ?HG; cbn -[run]);
        reflexivity.
    + repeat (rewrite Hcons; unfold step at 1, call_Get; cbn -[run];
              rewrite ?Hs; cbn -[run]);
        reflexivity.
  - repeat (rewrite Hcons; unfold step at 1; cbn -[run]); reflexivity.
Qed.

End Concurrent.

(** ** The contract of the handle *)

Section Contract.
Context `{Host : LazyHost}.

Lemma get_name (h : OpKindWrapper) (w : World) :
  name_ (get h w).1.1 = name_ h ∧ chars (get h w).1.2 = chars w.
Proof.
  unfold get, call_once, lambda, call_Get, assign_op_kind, mbind, method_bind,
    mret, method_ret.
  destruct h as [p k f]; simpl. destruct f; simpl; try done.
  destruct (chars w !! p) as [s|]; simpl; [|done].
  destruct (OpKind_Get s (registry w)) as [r' [e|v]]; done.
Qed.

Lemma resolve_is_get (a : accessor) (h : OpKindWrapper) (w : World) :
  resolve a h w =
  match get h w with
  | (h', w', Returned l) => (h', w', Returned (load l h'))
  | (h', w', Thrown e) => (h', w', Thrown e)
  | (h', w', Undefined) => (h', w', Undefined)
  end.
Proof.
  destruct a; unfold resolve, operator_star, operator_OpKind, copy_from,
    mbind, method_bind; by destruct (get h w) as [[h' w'] [l|e|]].
Qed.

(** C3. Constructing a handle makes no lookup: the constructor leaves the
    world, and with it the record of lookups, as it was, and the handle it
    builds is unresolved. The lookup is made by the first call of an
    accessor: the next event after construction is the lookup of the
    name, recorded by that call, and the call makes no second one. *)
Theorem construction_is_lazy (p : ptr) (w : World) (a : accessor) :
  let '(h, w0) := construct p w in
  w0 = w ∧
  count_if is_get (history w0) = count_if is_get (history w) ∧
  once_ h = once_init ∧
  ∀ s, chars w !! p = Some s →
    let '(_, w1, _) := resolve a h w0 in
    ∃ res rest,
      history w1 = history w ++ EvGet s res :: rest ∧
      count_if is_get rest = 0.
Proof.
  simpl. split_and!; auto. intros s Hs.
  rewrite resolve_cases; simpl. rewrite Hs.
  destruct (OpKind_Get s (registry w)) as [r' [e|v]]; simpl.
  - exists (inl e), []. done.
  - exists (inr v), [EvAssign v]. by rewrite <- app_assoc.
Qed.

(** C5. A lookup that throws ends the call that made it by the same
    exception: the accessor's outcome is that exception, one lookup and
    nothing else was recorded (no second attempt within the call), and the
    handle is as before the call, with no kind stored. Among several
    threads the exception ends the call of the thread whose lookup it
    was, and no other thread is touched. *)
Theorem lookup_failure_propagates (a : accessor) (h : OpKindWrapper)
    (w : World) (s : string) (r' : Registry) (e : Failure) :
  once_ h = once_init →
  chars w !! name_ h = Some s →
  OpKind_Get s (registry w) = (r', inl e) →
  resolve a h w = (h, record (EvGet s (inl e)) (set_registry r' w), Thrown e) ∧
  ∀ (t : nat) (l : list thread) (th : thread),
    l !! t = Some th → at_ th = AtLookup →
    step t {| handle := set_once once_active h; world := w; pool := l |} =
    Some {| handle := h;
            world := record (EvGet s (inl e)) (set_registry r' w);
            pool := <[t := finish (Thrown e) th]> l |}.
Proof.
  intros Hi Hs HG. split.
  - by rewrite resolve_cases, Hi, Hs, HG.
  - intros t l th Ht Hat. unfold step, call_Get; simpl.
    rewrite Ht; simpl. rewrite Hat, Hs, HG; simpl.
    destruct h as [p k f]; simpl in *. by subst f.
Qed.

(** C6. When the lookup of the first call throws, the flag is not
    consumed: the handle is unresolved after the call, and the next call
    makes the lookup again, in the registry as the first attempt left it.
    The outcome of that call is the outcome of its own lookup: the kind,
    now cached, when the lookup returns, and the new exception when it
    throws; the first exception is not kept. *)
Theorem failed_attempt_is_retried (a1 a2 : accessor) (h : OpKindWrapper)
    (w : World) (s : string) (r1 : Registry) (e : Failure) :
  once_ h = once_init →
  chars w !! name_ h = Some s →
  OpKind_Get s (registry w) = (r1, inl e) →
  let '(h1, w1, o1) := resolve a1 h w in
  let '(h2, w2, o2) := resolve a2 h1 w1 in
  o1 = Thrown e ∧ once_ h1 = once_init ∧
  match OpKind_Get s r1 with
  | (r2, inr v) =>
      o2 = Returned v ∧ once_ h2 = once_done ∧ op_kind_ h2 = v ∧
      registry w2 = r2 ∧
      history w2 = history w ++ [EvGet s (inl e); EvGet s (inr v); EvAssign v]
  | (r2, inl e') =>
      o2 = Thrown e' ∧ once_ h2 = once_init ∧
      registry w2 = r2 ∧
      history w2 = history w ++ [EvGet s (inl e); EvGet s (inl e')]
  end.
Proof.
  intros Hi Hs HG.
  rewrite resolve_cases, Hi, Hs, HG.
  rewrite resolve_cases, Hi. simpl. rewrite Hs.
  destruct (OpKind_Get s r1) as [r2 [e'|v]]; simpl;
    split_and!; auto; by rewrite <- !app_assoc.
Qed.

(** C8. The conversion operator and the dereference operator are the same
    call of [get()]: on any handle in any world they leave the same handle
    and the same world behind (so the same lookup, if any) and end alike,
    the conversion giving the value that the reference from the
    dereference designates. *)
Theorem accessors_agree (h : OpKindWrapper) (w : World) :
  operator_star h w = get h w ∧
  resolve Deref h w = resolve Convert h w ∧
  let '(h1, w1, o1) := operator_star h w in
  let '(h2, w2, o2) := operator_OpKind h w in
  h1 = h2 ∧ w1 = w2 ∧
  match o1, o2 with
  | Returned l, Returned v => load l h1 = v
  | Thrown e1, Thrown e2 => e1 = e2
  | Undefined, Undefined => True
  | _, _ => False
  end.
Proof.
  split; [done|]. split; [by rewrite !resolve_is_get|].
  unfold operator_star, operator_OpKind, copy_from, mbind, method_bind.
  by destruct (get h w) as [[h' w'] [l|e|]].
Qed.

(** C9. No operation changes [name_]: not the dereference, not the
    conversion, no sequence of them from one thread and no interleaving
    of the steps of several threads. The characters it points to are not
    written either. *)
Theorem name_is_immutable :
  (∀ h w, name_ (operator_star h w).1.1 = name_ h ∧
          name_ (operator_OpKind h w).1.1 = name_ h) ∧
  (∀ calls h w, name_ (resolve_all calls h w).1.1 = name_ h ∧
                chars (resolve_all calls h w).1.2 = chars w) ∧
  (∀ sched st, name_ (handle (run sched st)) = name_ (handle st) ∧
               chars (world (run sched st)) = chars (world st)).
Proof.
  assert (Hres : ∀ a h w, name_ (resolve a h w).1.1 = name_ h ∧
                          chars (resolve a h w).1.2 = chars w).
  { intros a h w. rewrite resolve_is_get.
    pose proof (get_name h w) as Hg.
    by destruct (get h w) as [[h' w'] [l|e|]]. }
  split_and!.
  - intros h w. split; [apply get_name|]. apply (Hres Convert h w).
  - induction calls as [|a rest IH]; intros h w; [done|]. simpl.
    destruct (Hres a h w) as [Hn Hc].
    destruct (resolve a h w) as [[h1 w1] r1]; simpl in *.
    destruct (IH h1 w1) as [Hn' Hc'].
    destruct (resolve_all rest h1 w1) as [[h2 w2] rs]; simpl in *.
    split; congruence.
  - intros sched st. destruct (run_name sched st) as (? & ? & _). done.
Qed.

(** C10. The constructor puts the pointer it is given into [name_] and
    does nothing else: the world is untouched, the cache is the default
    kind and the flag is clear. No copy of the characters is taken: an
    accessor called in any later world looks up the characters found at
    the pointer then, and its behaviour is undefined when no array is
    there any more. *)
Theorem constructor_stores_the_pointer (p : ptr) (w : World) :
  let '(h, w0) := construct p w in
  name_ h = p ∧ w0 = w ∧
  op_kind_ h = OpKind_default ∧ once_ h = once_init ∧
  ∀ (a : accessor) (w' : World),
    match chars w' !! p with
    | Some s' =>
        ∃ rest, history (resolve a h w').1.2 =
                history w' ++ EvGet s' (OpKind_Get s' (registry w')).2 :: rest
    | None => (resolve a h w').2 = Undefined
    end.
Proof.
  simpl. split_and!; auto. intros a w'.
  rewrite resolve_cases; simpl.
  destruct (chars w' !! p) as [s'|]; [|done].
  destruct (OpKind_Get s' (registry w')) as [r' [e|v]]; simpl.
  - by exists [].
  - exists [EvAssign v]. by rewrite <- app_assoc.
Qed.

Lemma after_app (names more : list string) (r : Registry) :
  after (names ++ more) r = after more (after names r).
Proof. unfold after. by rewrite foldl_app. Qed.

Lemma after_cons (s : string) (names : list string) (r : Registry) :
  after (s :: names) r = after names (OpKind_Get s r).1.
Proof. done. Qed.

Lemma obtained_app (r0 : Registry) (s : string) (v : OpKind)
    (names more : list string) :
  obtained r0 s v names → obtained r0 s v (names ++ more).
Proof.
  intros (pre & post & r' & -> & HG). exists pre, (post ++ more), r'.
  by rewrite <- app_assoc.
Qed.

Lemma cached_app (r0 : Registry) (s : string) (names more : list string)
    (h : OpKindWrapper) :
  cached r0 s names h → cached r0 s (names ++ more) h.
Proof.
  intros [Hi|[Hd Ho]]; [by left|]. right. split; [done|].
  by apply obtained_app.
Qed.

(** One call, seen from the registry: the registry moves on by the lookup
    the call makes, if it makes one, and a kind that is returned is one a
    lookup of the name returned in this very run. *)
Lemma resolve_obtained (r0 : Registry) (a : accessor) (h : OpKindWrapper)
    (w : World) (s : string) (names : list string) :
  registry w = after names r0 →
  cached r0 s names h →
  chars w !! name_ h = Some s →
  ∃ more,
    registry (resolve a h w).1.2 = after (names ++ more) r0 ∧
    cached r0 s (names ++ more) (resolve a h w).1.1 ∧
    name_ (resolve a h w).1.1 = name_ h ∧
    chars (resolve a h w).1.2 = chars w ∧
    (∀ v, (resolve a h w).2 = Returned v →
       obtained r0 s v (names ++ more)) ∧
    is_undefined (resolve a h w).2 = false ∧
    (never_fails s → is_returned (resolve a h w).2 = true).
Proof.
  intros Hr Hok Hs. rewrite resolve_cases.
  destruct Hok as [Hi|[Hd Ho]].
  - rewrite Hi, Hs. exists [s].
    assert (Hafter : after (names ++ [s]) r0 = (OpKind_Get s (registry w)).1)
      by (by rewrite after_app, Hr).
    destruct (OpKind_Get s (registry w)) as [r' [e|v]] eqn:HG; simpl in *.
    + split_and!; auto; [by left|done|].
      intros Hnever. destruct (Hnever (registry w)) as (? & ? & ?). congruence.
    + assert (obtained r0 s v (names ++ [s])).
      { exists names, [], r'. split; [done|]. by rewrite <- Hr. }
      split_and!; auto; [by right|]. by intros ? [= <-].
  - rewrite Hd. exists []. rewrite app_nil_r. simpl.
    split_and!; auto; [by right|]. by intros ? [= <-].
Qed.

(** Any program of calls on two handles: each call has its outcome, in
    order; no outcome is undefined; a kind that a handle returns is one a
    lookup of its name returned in the run of lookups the program made;
    and all calls return when the lookups do not throw. *)
Lemma resolve_both_obtained (r0 : Registry) (prog : list (bool * accessor)) :
  ∀ (h1 h2 : OpKindWrapper) (w : World) (names : list string)
    (s1 s2 : string),
    registry w = after names r0 →
    cached r0 s1 names h1 → cached r0 s2 names h2 →
    chars w !! name_ h1 = Some s1 → chars w !! name_ h2 = Some s2 →
    ∃ more,
      (resolve_both prog h1 h2 w).2.*1 = prog.*1 ∧
      (∀ (b : bool) (v : OpKind),
         (b, Returned v) ∈ (resolve_both prog h1 h2 w).2 →
         obtained r0 (if b then s2 else s1) v (names ++ more)) ∧
      (∀ (b : bool) (r : outcome OpKind),
         (b, r) ∈ (resolve_both prog h1 h2 w).2 → is_undefined r = false) ∧
      (never_fails s1 → never_fails s2 →
         Forall (λ br, is_returned br.2 = true) (resolve_both prog h1 h2 w).2).
Proof.
  induction prog as [|[[] a] rest IH];
    intros h1 h2 w names s1 s2 R O1 O2 N1 N2; simpl.
  - exists []. split_and!; auto; by intros ? ? ?%elem_of_nil.
  - destruct (resolve_obtained r0 a h2 w s2 names R O2 N2)
      as (m1 & R' & O2' & Hn & Hc & Hv & Hu & Hr).
    destruct (resolve a h2 w) as [[h2' w'] r]; simpl in *.
    destruct (IH h1 h2' w' (names ++ m1) s1 s2 R') as (m2 & Hf & Ho & Hun & Hre);
      [by apply cached_app|done|by rewrite Hc|by rewrite Hc, Hn|].
    destruct (resolve_both rest h1 h2' w') as [[[h1'' h2''] w''] rs];
      simpl in *.
    exists (m1 ++ m2). rewrite app_assoc. split_and!.
    + csimpl. f_equal. exact Hf.
    + intros b v [[= -> <-]|Hin]%elem_of_cons; [|by apply Ho].
      by apply obtained_app, Hv.
    + intros b r' [[= -> ->]|Hin]%elem_of_cons; [done|by eapply Hun].
    + intros F1 F2. constructor; [by apply Hr|by apply Hre].
  - destruct (resolve_obtained r0 a h1 w s1 names R O1 N1)
      as (m1 & R' & O1' & Hn & Hc & Hv & Hu & Hr).
    destruct (resolve a h1 w) as [[h1' w'] r]; simpl in *.
    destruct (IH h1' h2 w' (names ++ m1) s1 s2 R') as (m2 & Hf & Ho & Hun & Hre);
      [done|by apply cached_app|by rewrite Hc, Hn|by rewrite Hc|].
    destruct (resolve_both rest h1' h2 w') as [[[h1'' h2''] w''] rs];
      simpl in *.
    exists (m1 ++ m2). rewrite app_assoc. split_and!.
    + csimpl. f_equal. exact Hf.
    + intros b v [[= -> <-]|Hin]%elem_of_cons; [|by apply Ho].
      by apply obtained_app, Hv.
    + intros b r' [[= -> ->]|Hin]%elem_of_cons; [done|by eapply Hun].
    + intros F1 F2. constructor; [by apply Hr|by apply Hre].
Qed.

(** Two lookups of one run are one before the other, unless they are the
    same lookup. *)
Lemma two_lookups_in_order (pre1 post1 pre2 post2 : list string)
    (s1 s2 : string) :
  pre1 ++ s1 :: post1 = pre2 ++ s2 :: post2 →
  (∃ mid, pre2 = pre1 ++ s1 :: mid) ∨
  (∃ mid, pre1 = pre2 ++ s2 :: mid) ∨
  (pre1 = pre2 ∧ s1 = s2).
Proof.
  intros [(k & -> & Hk)|(k & -> & Hk)]%app_eq_inv.
  - destruct k as [|x k]; simplify_eq/=.
    + right; right. by rewrite app_nil_r.
    + right; left. by exists k.
  - destruct k as [|x k]; simplify_eq/=.
    + right; right. by rewrite app_nil_r.
    + left. by exists k.
Qed.

Lemma obtained_distinct (r0 : Registry) (s1 s2 : string) (v1 v2 : OpKind)
    (names : list string) :
  distinct_kinds_from r0 → s1 ≠ s2 →
  obtained r0 s1 v1 names → obtained r0 s2 v2 names → v1 ≠ v2.
Proof.
  intros Hdist Hne (pre1 & post1 & r1 & -> & G1) (pre2 & post2 & r2 & Heq & G2).
  destruct (two_lookups_in_order _ _ _ _ _ _ Heq)
    as [(mid & ->)|[(mid & ->)|(_ & ?)]]; [| |done].
  - rewrite after_app, after_cons, G1 in G2. simpl in G2.
    exact (Hdist pre1 mid s1 s2 r1 r2 v1 v2 Hne G1 G2).
  - rewrite after_app, after_cons, G2 in G1. simpl in G1.
    intros Heqv. symmetry in Heqv. revert Heqv.
    exact (Hdist pre2 mid s2 s1 r2 r1 v2 v1 (not_eq_sym Hne) G2 G1).
Qed.

(** C7. Let the registry, from the state it is in, give distinct kinds to
    distinct names. Two handles are constructed on pointers to different
    names; the accessors are then called on them any number of times, in
    any order. Every call has its outcome, none undefined, and all calls
    return a kind when the lookups of the two names do not throw.
    Whatever a call on the first handle returns is unequal to whatever a
    call on the second returns. *)
Theorem distinct_names_distinct_kinds (p1 p2 : ptr) (s1 s2 : string)
    (w : World) (prog : list (bool * accessor)) :
  distinct_kinds_from (registry w) →
  chars w !! p1 = Some s1 →
  chars w !! p2 = Some s2 →
  s1 ≠ s2 →
  let '(h1, w1) := construct p1 w in
  let '(h2, w2) := construct p2 w1 in
  let '(_, _, _, rs) := resolve_both prog h1 h2 w2 in
  rs.*1 = prog.*1 ∧
  (∀ b r, (b, r) ∈ rs → is_undefined r = false) ∧
  (never_fails s1 → never_fails s2 →
     Forall (λ br, is_returned br.2 = true) rs) ∧
  ∀ v1 v2, (false, Returned v1) ∈ rs → (true, Returned v2) ∈ rs → v1 ≠ v2.
Proof.
  intros Hdist N1 N2 Hne. simpl.
  destruct (resolve_both_obtained (registry w) prog
    {| name_ := p1; op_kind_ := OpKind_default; once_ := once_init |}
    {| name_ := p2; op_kind_ := OpKind_default; once_ := once_init |}
    w [] s1 s2 eq_refl (or_introl eq_refl) (or_introl eq_refl) N1 N2)
    as (names & Hfst & Hob & Hund & Hret).
  destruct (resolve_both prog _ _ _) as [[[h1' h2'] w'] rs]; simpl in *.
  split_and!; auto.
  intros v1 v2 H1 H2.
  exact (obtained_distinct (registry w) s1 s2 v1 v2 names Hdist Hne
           (Hob false v1 H1) (Hob true v2 H2)).
Qed.

Lemma nthrown_le_sum (l : list thread) (t : nat) (th : thread) :
  l !! t = Some th → nthrown th ≤ sum_list (nthrown <$> l).
Proof.
  revert t. induction l as [|x l IH]; intros [|t] Ht; simplify_eq/=; [lia|].
  specialize (IH t Ht). lia.
Qed.

(** C4. In every state that threads calling [get()] in any interleaving
    can reach from a fresh handle: [op_kind_] has been assigned at most
    once; while it has not been assigned it holds the default kind and
    the flag is not done; once it has been assigned, no continuation
    assigns it again or makes another lookup, and its value stays; and
    every call that has returned, returned that one assigned value from a
    handle whose flag was done, none having read the member while it was
    being written. *)
Theorem cache_written_once (todos : list nat) (p : ptr) (s : string)
    (w : World) (sched : list nat) :
  chars w !! p = Some s →
  let st := run sched (spawn p w todos) in
  let new := since (length (history w)) st in
  count_if is_assign new ≤ 1 ∧
  (count_if is_assign new = 0 →
     op_kind_ (handle st) = OpKind_default ∧ once_ (handle st) ≠ once_done) ∧
  (count_if is_assign new = 1 →
     EvAssign (op_kind_ (handle st)) ∈ new ∧
     ∀ sched',
       op_kind_ (handle (run sched' st)) = op_kind_ (handle st) ∧
       history (world (run sched' st)) = history (world st)) ∧
  (∀ t th r, pool st !! t = Some th → r ∈ results th →
     r ≠ Undefined ∧
     ∀ v, r = Returned v →
       v = op_kind_ (handle st) ∧ once_ (handle st) = once_done ∧
       EvAssign v ∈ new).
Proof.
  intros Hs st new.
  assert (Hinv : inv s (registry w) (history w) st)
    by (apply run_inv, spawn_inv, Hs).
  destruct (inv_view _ _ _ _ Hinv) as (es & tail & Hnew & _ & _ & Hcase & Hth).
  fold new in Hnew.
  assert (Hcount : count_if is_assign new = count_if is_assign tail).
  { rewrite Hnew, count_if_app.
    destruct (count_failed_lookups s es) as (_ & _ & _ & ->). done. }
  assert (Hin : tail = resolution s (op_kind_ (handle st)) →
                EvAssign (op_kind_ (handle st)) ∈ new).
  { intros Ht. rewrite Hnew, Ht. apply elem_of_app. right.
    apply list_elem_of_further, list_elem_of_here. }
  split_and!.
  - rewrite Hcount.
    destruct Hcase as [(-> & _)|[(v & -> & _)|(-> & _)]]; simpl; lia.
  - rewrite Hcount.
    destruct Hcase as [(-> & ? & ?)|[(v & -> & ? & Ha)|(-> & _)]]; simpl;
      [done| |done].
    intros _. split; [done|]. by rewrite Ha.
  - intros Hone. split.
    + apply Hin. rewrite Hcount in Hone.
      destruct Hcase as [(-> & _)|[(v & -> & _)|(-> & _)]]; done.
    + intros sched'. by apply (run_after_assign s (registry w) (history w)).
  - intros t th r Ht Hr. destruct (Hth t th Ht) as [_ Hres].
    rewrite Forall_forall in Hres. specialize (Hres r Hr).
    split; [by destruct r|].
    intros v ->. destruct Hres as [Hd ->]. split_and!; auto.
    apply Hin. destruct Hcase as [(_ & _ & ?)|[(? & _ & _ & Ha)|(-> & _)]];
      [done|by rewrite Ha in Hd|done].
Qed.

Lemma spawn_pool (p : ptr) (w : World) (N : nat) (sched : list nat) (t : nat) :
  t < N →
  ∃ th, pool (run sched (spawn p w (replicate N 1))) !! t = Some th ∧
        budget th = 1.
Proof.
  intros Ht. set (st0 := spawn p w (replicate N 1)).
  destruct (run_name sched st0) as (_ & _ & Hlen).
  assert (H0 : pool st0 !! t = Some {| at_ := Idle; todo := 1; results := [] |}).
  { unfold st0, spawn; simpl. rewrite list_lookup_fmap.
    by rewrite lookup_replicate_2. }
  destruct (lookup_lt_is_Some_2 (pool (run sched st0)) t) as [th Hth].
  { rewrite Hlen. by eapply lookup_lt_Some. }
  exists th. split; [done|].
  pose proof (run_budget sched st0) as Hb.
  apply (f_equal (λ l, l !! t)) in Hb.
  rewrite !list_lookup_fmap, Hth, H0 in Hb. by simplify_eq/=.
Qed.

(** C2 (concurrency safety), in the form that holds of the code.
    [N ≥ 2] threads each call [get()] once on a fresh handle whose name
    is in memory, in any interleaving. At every moment: at most one
    lookup has returned normally; each lookup that threw has ended the
    call of one thread by that exception; every call that has returned,
    returned the cached kind of the handle, read when the flag was done
    and no assignment was under way; at most one thread is the active
    execution, and a thread at [std::call_once] cannot move while one is;
    and some continuation brings all threads to the end of their call. If the
    lookup of the name never throws, at most one lookup is made at all,
    and when all threads have ended their call exactly one lookup has
    been made, of the name of the handle in the registry as it was at the
    start, and every thread has received its result. *)
Theorem concurrent_first_resolution (N : nat) (p : ptr) (s : string)
    (w : World) (sched : list nat) :
  2 ≤ N →
  chars w !! p = Some s →
  let st := run sched (spawn p w (replicate N 1)) in
  let new := since (length (history w)) st in
  count_if is_get_ok new ≤ 1 ∧
  count_if is_get_fail new = sum_list (nthrown <$> pool st) ∧
  (∀ t th r, pool st !! t = Some th → r ∈ results th →
     r ≠ Undefined ∧
     ∀ v, r = Returned v →
       v = op_kind_ (handle st) ∧ once_ (handle st) = once_done) ∧
  exclusive (pool st) ∧
  (∀ t t' th th', pool st !! t = Some th → pool st !! t' = Some th' →
     is_active th' = true → at_ th = AtCallOnce → step t st = None) ∧
  (∃ sched', all_finished (run sched' st) = true) ∧
  (never_fails s →
     count_if is_get new ≤ 1 ∧
     (all_finished st = true →
        ∃ r' v,
          OpKind_Get s (registry w) = (r', inr v) ∧
          new = resolution s v ∧
          ∀ t, t < N →
            ∃ th, pool st !! t = Some th ∧ results th = [Returned v])).
Proof.
  intros HN Hs st new.
  assert (Hinv : inv s (registry w) (history w) st)
    by (apply run_inv, spawn_inv, Hs).
  destruct (inv_view _ _ _ _ Hinv) as (es & tail & Hnew & Hlen & Hans & Hcase & Hth).
  fold new in Hnew.
  destruct (count_failed_lookups s es) as (Cg & Co & Cf & _).
  assert (Hres : ∀ t th r, pool st !! t = Some th → r ∈ results th →
    r ≠ Undefined ∧
    ∀ v, r = Returned v →
      v = op_kind_ (handle st) ∧ once_ (handle st) = once_done).
  { intros t th r Ht Hr. destruct (Hth t th Ht) as [_ Hall].
    rewrite Forall_forall in Hall. specialize (Hall r Hr).
    split; [by destruct r|]. intros v ->. by destruct Hall as [? ->]. }
  split_and!.
  - rewrite Hnew, count_if_app, Co.
    destruct Hcase as [(-> & _)|[(v & -> & _)|(-> & _)]]; simpl; lia.
  - rewrite Hnew, count_if_app, Cf, <- Hlen.
    destruct Hcase as [(-> & _)|[(v & -> & _)|(-> & _)]]; simpl; lia.
  - exact Hres.
  - by destruct Hinv as (? & ? & _ & _ & _ & _ & _ & ? & _).
  - intros t t' th th' Ht Ht' Ha Hat.
    pose proof (thread_inv_active _ _ _ _ (Hth t' th' Ht') Ha) as Hf.
    unfold step. rewrite Ht. simpl. by rewrite Hat, Hf.
  - by eapply can_finish.
  - intros Hnever.
    assert (es = []) as ->.
    { destruct es as [|e es]; [done|]. simpl in Hans.
      destruct Hans as (r1 & HG & _).
      destruct (Hnever (registry w)) as (r' & v & HG'). congruence. }
    simpl in Hnew, Hans, Hlen. split.
    + rewrite Hnew.
      destruct Hcase as [(-> & _)|[(v & -> & _)|(-> & _)]]; simpl; lia.
    + intros Hfin.
      assert (Hone : ∀ t, t < N →
        ∃ th, pool st !! t = Some th ∧
              results th = [Returned (op_kind_ (handle st))] ∧
              once_ (handle st) = once_done).
      { intros t Ht. destruct (spawn_pool p w N sched t Ht) as (th & Hp & Hb).
        fold st in Hp. exists th. split; [done|].
        pose proof (forallb_true _ _ _ _ Hfin Hp) as Hf.
        unfold is_finished in Hf. unfold budget, entered in Hb.
        destruct (at_ th); try done. destruct (todo th); [|done].
        destruct (results th) as [|r [|? ?]] eqn:Hr; simpl in Hb; try lia.
        assert (Hin : r ∈ results th) by (rewrite Hr; apply list_elem_of_here).
        destruct (Hres t th r Hp Hin) as [Hu Hv].
        pose proof (nthrown_le_sum _ _ _ Hp) as Hle.
        rewrite <- Hlen in Hle. unfold nthrown in Hle. rewrite Hr in Hle.
        destruct r as [v|e|]; [|simpl in Hle; lia|done].
        destruct (Hv v eq_refl) as [-> Hd]. done. }
      destruct (Hone 0) as (th0 & _ & _ & Hd); [lia|].
      destruct Hcase as [(_ & _ & ?)|[(? & _ & _ & Ha)|(-> & _)]];
        [done|by rewrite Ha in Hd|].
      simpl in Hans. destruct Hans as (r1 & HG & _).
      exists r1, (op_kind_ (handle st)). split_and!; auto.
      intros t Ht. destruct (Hone t Ht) as (th & ? & ? & _). eauto.
Qed.

End Contract.

(** ** The contract at work on the test registries *)

Lemma numbering_index_lookup (s : string) (r : list string) (i : nat) :
  NumberingHost.index_of s r = Some i → r !! i = Some s.
Proof.
  revert i. induction r as [|x r IH]; intros i; simpl; [done|].
  case_bool_decide as Hx.
  - intros [= <-]. by rewrite Hx.
  - destruct (NumberingHost.index_of s r) as [j|]; [|done].
    intros [= <-]. by apply IH.
Qed.

Lemma numbering_index_app (s : string) (r k : list string) (i : nat) :
  NumberingHost.index_of s r = Some i →
  NumberingHost.index_of s (r ++ k) = Some i.
Proof.
  revert i. induction r as [|x r IH]; intros i; simpl; [done|].
  case_bool_decide; [done|].
  destruct (NumberingHost.index_of s r) as [j|]; [|done].
  intros [= <-]. by rewrite (IH j).
Qed.

Lemma numbering_index_fresh (s : string) (r : list string) :
  NumberingHost.index_of s r = None →
  NumberingHost.index_of s (r ++ [s]) = Some (length r).
Proof.
  induction r as [|x r IH]; simpl.
  - intros _. by rewrite bool_decide_eq_true_2.
  - case_bool_decide; [done|].
    destruct (NumberingHost.index_of s r) as [j|]; [done|].
    intros _. by rewrite IH.
Qed.

(** A lookup that returns leaves the name in the list, at the position it
    returns, and only ever adds to the end of the list. *)
Lemma numbering_get (s : string) (r r' : list string) (v : nat) :
  NumberingHost.Get s r = (r', inr v) →
  NumberingHost.index_of s r' = Some v ∧ ∃ k, r' = r ++ k.
Proof.
  unfold NumberingHost.Get. destruct (TestHost.has_namespace s); [|done].
  destruct (NumberingHost.index_of s r) as [i|] eqn:Hi; intros [= <- <-].
  - split; [done|]. exists []. by rewrite app_nil_r.
  - split; [by apply numbering_index_fresh|]. by exists [s].
Qed.

Lemma numbering_after_grows (names : list string) (r : list string) :
  ∃ k, after (Host := NumberingHost.host) names r = r ++ k.
Proof.
  revert r. induction names as [|s names IH]; intros r.
  - exists []. by rewrite app_nil_r.
  - rewrite after_cons.
    assert (∃ k, (OpKind_Get (LazyHost := NumberingHost.host) s r).1 = r ++ k)
      as [k ->].
    { simpl. unfold NumberingHost.Get.
      destruct (TestHost.has_namespace s);
        [destruct (NumberingHost.index_of s r)|]; simpl;
        [exists []; by rewrite app_nil_r|by exists [s]
        |exists []; by rewrite app_nil_r]. }
    destruct (IH (r ++ k)) as [k' ->]. exists (k ++ k').
    by rewrite app_assoc.
Qed.

(** The numbering registry gives distinct kinds to distinct names from
    any state on, although the number of a name depends on the state in
    which it was first looked up. *)
Lemma numbering_distinct (r0 : list string) :
  distinct_kinds_from (Host := NumberingHost.host) r0.
Proof.
  intros pre mid s1 s2 r1 r2 v1 v2 Hne G1 G2 <-.
  apply numbering_get in G1 as [I1%numbering_index_lookup _].
  apply numbering_get in G2 as [I2%numbering_index_lookup [k' Hk']].
  destruct (numbering_after_grows mid r1) as [k Hk].
  rewrite Hk in Hk'. rewrite Hk', <- app_assoc in I2.
  rewrite (lookup_app_l_Some _ _ _ _ I1) in I2. congruence.
Qed.

(** Kinds from unrelated states of the numbering registry are not
    comparable: two names can have the same number, each in its own
    state. *)
Example numbering_depends_on_the_state :
  (NumberingHost.Get "lazy_tensors::select" []).2 = inr 0 ∧
  (NumberingHost.Get "lazy_tensors::cast" []).2 = inr 0 ∧
  (NumberingHost.Get "lazy_tensors::select" ["lazy_tensors::cast"]).2 = inr 1.
Proof. vm_compute. done. Qed.

Lemma numbering_idempotent (r0 : list string) :
  idempotent_from (Host := NumberingHost.host) r0.
Proof.
  intros pre mid s r1 r2 v1 v2 G1 G2.
  apply numbering_get in G1 as [I1 _].
  destruct (numbering_after_grows mid r1) as [k Hk].
  rewrite Hk in G2. simpl in G2. unfold NumberingHost.Get in G2.
  rewrite (numbering_index_app s r1 k v1 I1) in G2.
  destruct (TestHost.has_namespace s); by simplify_eq.
Qed.

Lemma numbering_never_fails (s : string) :
  TestHost.has_namespace s = true →
  never_fails (Host := NumberingHost.host) s.
Proof.
  intros Hq r. simpl. unfold NumberingHost.Get. rewrite Hq.
  destruct (NumberingHost.index_of s r); eauto.
Qed.

Lemma test_registry_select_never_fails :
  never_fails (Host := TestHost.host) "lazy_tensors::select".
Proof. intros r. eexists _, _. reflexivity. Qed.

(** The scenario of eight threads on one handle: one lookup, of the name
    of the handle, and eight equal results. *)
Example eight_threads_one_lookup :
  let st := run (concat (replicate 7 (seq 0 8)))
              (spawn 16%N TestHost.world0 (replicate 8 1)) in
  let v := TestHost.kind "lazy_tensors::select" in
  all_finished st = true ∧
  history (world st) = resolution "lazy_tensors::select" v ∧
  results <$> pool st = replicate 8 [Returned v].
Proof. vm_compute. done. Qed.

(** Two handles on two names resolve to unequal kinds. *)
Example select_is_not_cast :
  let '(h1, w1) := construct 16%N TestHost.world0 in
  let '(h2, w2) := construct 48%N w1 in
  (resolve_both [(false, Convert); (true, Convert)] h1 h2 w2).2 =
    [(false, Returned (TestHost.kind "lazy_tensors::select"));
     (true, Returned (TestHost.kind "lazy_tensors::cast"))].
Proof. vm_compute. done. Qed.

(** The characters are read at the first call, not at construction: a
    handle constructed while the array held one name resolves to the name
    the array holds when the handle is first used. *)
Example name_read_at_first_use :
  let '(h, w) := construct 16%N TestHost.world0 in
  let w' := @mkWorld TestHost.host
              (<[16%N := "lazy_tensors::cast"]> (chars w))
              (registry w) (history w) in
  (resolve Deref h w').2 = Returned (TestHost.kind "lazy_tensors::cast").
Proof. vm_compute. done. Qed.

(** C1, as stated, fails: on a handle whose name the registry refuses,
    two calls make two lookups. *)
Lemma second_call_repeats_a_throwing_lookup :
  let '(h, w0) := construct 80%N TestHost.world0 in
  let '(_, w1, rs) := resolve_all [Deref; Deref] h w0 in
  rs = [Thrown (TestHost.refused "ltc_select");
        Thrown (TestHost.refused "ltc_select")] ∧
  count_if is_get (history w1) = 2 ∧
  ¬ count_if is_get (history w1) ≤ 1.
Proof. vm_compute. split_and!; [done|done|lia]. Qed.

(** C2, as stated, fails: two threads race on a fresh handle whose name
    the registry refuses; each in turn becomes the active execution, two
    lookups are made and no thread receives a kind. *)
Lemma racing_callers_repeat_a_throwing_lookup :
  let st := run [0; 1; 0; 1; 0; 1; 1]
              (spawn 80%N TestHost.world0 (replicate 2 1)) in
  all_finished st = true ∧
  count_if is_get (since 0 st) = 2 ∧
  ¬ count_if is_get (since 0 st) = 1 ∧
  ¬ ∃ v, Forall (λ th, results th = [Returned v]) (pool st).
Proof.
  vm_compute. split_and!; [done|done|lia|].
  intros (v & Hall). by inversion Hall.
Qed.

Lemma memoization_witness :
  chars TestHost.world0 !! 16%N = Some "lazy_tensors::select" ∧
  let '(h, w0) := construct 16%N TestHost.world0 in
  let '(h', w', rs) := resolve_all [Deref; Convert; Deref] h w0 in
  ∃ new,
    history w' = history TestHost.world0 ++ new ∧
    count_if is_get_ok new = (if existsb is_returned rs then 1 else 0) ∧
    count_if is_get_fail new = count_if is_thrown rs ∧
    count_if is_get new =
      count_if is_thrown rs + (if existsb is_returned rs then 1 else 0) ∧
    count_if is_undefined rs = 0 ∧
    (∀ i j e, i < j → rs !! j = Some (Thrown e) →
       ∃ e', rs !! i = Some (Thrown e')) ∧
    (∀ i v, rs !! i = Some (Returned v) → v = op_kind_ h').
Proof.
  split; [reflexivity|].
  apply (memoization 16%N "lazy_tensors::select" TestHost.world0
           [Deref; Convert; Deref]).
  reflexivity.
Defined.

Lemma concurrent_first_resolution_witness :
  2 ≤ 2 ∧
  chars TestHost.world0 !! 16%N = Some "lazy_tensors::select" ∧
  never_fails (Host := TestHost.host) "lazy_tensors::select" ∧
  let st := run [0; 1; 0; 1; 0; 0; 0; 0; 0; 1; 1]
              (spawn 16%N TestHost.world0 (replicate 2 1)) in
  all_finished st = true ∧
  ∃ r' v,
    OpKind_Get "lazy_tensors::select" (registry TestHost.world0) = (r', inr v) ∧
    since (length (history TestHost.world0)) st =
      resolution "lazy_tensors::select" v ∧
    ∀ t, t < 2 → ∃ th, pool st !! t = Some th ∧ results th = [Returned v].
Proof.
  assert (H2 : 2 ≤ 2) by lia.
  assert (Hs : chars TestHost.world0 !! 16%N = Some "lazy_tensors::select")
    by reflexivity.
  assert (Hfin : all_finished
    (run [0; 1; 0; 1; 0; 0; 0; 0; 0; 1; 1]
       (spawn 16%N TestHost.world0 (replicate 2 1))) = true)
    by (vm_compute; reflexivity).
  split; [exact H2|]. split; [exact Hs|].
  split; [exact test_registry_select_never_fails|].
  intros st. split; [exact Hfin|].
  destruct (concurrent_first_resolution 2 16%N "lazy_tensors::select"
              TestHost.world0 [0; 1; 0; 1; 0; 0; 0; 0; 0; 1; 1] H2 Hs)
    as (_ & _ & _ & _ & _ & _ & Hgood).
  exact (proj2 (Hgood test_registry_select_never_fails) Hfin).
Defined.

Lemma construction_is_lazy_witness :
  chars TestHost.world0 !! 16%N = Some "lazy_tensors::select" ∧
  let '(_, w1, _) :=
    resolve Deref (construct 16%N TestHost.world0).1 TestHost.world0 in
  ∃ res rest,
    history w1 =
      history TestHost.world0 ++ EvGet "lazy_tensors::select" res :: rest ∧
    count_if is_get rest = 0.
Proof.
  split; [reflexivity|].
  destruct (construction_is_lazy 16%N TestHost.world0 Deref)
    as (_ & _ & _ & Hfirst).
  exact (Hfirst "lazy_tensors::select" eq_refl).
Defined.

Lemma cache_written_once_witness :
  chars TestHost.world0 !! 16%N = Some "lazy_tensors::select" ∧
  let st := run [0; 1; 0; 1; 0; 0; 0]
              (spawn 16%N TestHost.world0 [2; 1]) in
  count_if is_assign (since (length (history TestHost.world0)) st) ≤ 1.
Proof.
  split; [reflexivity|].
  apply (cache_written_once [2; 1] 16%N "lazy_tensors::select"
           TestHost.world0 [0; 1; 0; 1; 0; 0; 0]).
  reflexivity.
Defined.

Lemma lookup_failure_propagates_witness :
  let h := (construct 80%N TestHost.world0).1 in
  once_ h = once_init ∧
  chars TestHost.world0 !! name_ h = Some "ltc_select" ∧
  OpKind_Get "ltc_select" (registry TestHost.world0) =
    (TestHost.no_names, inl (TestHost.refused "ltc_select")) ∧
  resolve Convert h TestHost.world0 =
    (h,
     record (EvGet "ltc_select" (inl (TestHost.refused "ltc_select")))
       (set_registry TestHost.no_names TestHost.world0),
     Thrown (TestHost.refused "ltc_select")).
Proof.
  split_and!; [reflexivity|reflexivity|reflexivity|].
  apply (lookup_failure_propagates Convert
           (construct 80%N TestHost.world0).1 TestHost.world0
           "ltc_select" TestHost.no_names (TestHost.refused "ltc_select")
           eq_refl eq_refl eq_refl).
Defined.

Lemma failed_attempt_is_retried_witness :
  let h := (construct 16%N FlakyHost.world1).1 in
  once_ h = once_init ∧
  chars FlakyHost.world1 !! name_ h = Some "lazy_tensors::select" ∧
  OpKind_Get "lazy_tensors::select" (registry FlakyHost.world1) =
    (FlakyHost.ready, inl FlakyHost.not_ready) ∧
  let '(h1, w1, o1) := resolve Deref h FlakyHost.world1 in
  let '(h2, w2, o2) := resolve Deref h1 w1 in
  o1 = Thrown FlakyHost.not_ready ∧ once_ h1 = once_init ∧
  o2 = Returned (FlakyHost.kind "lazy_tensors::select") ∧
  once_ h2 = once_done.
Proof.
  split_and!; [reflexivity|reflexivity|reflexivity|].
  pose proof (failed_attempt_is_retried Deref Deref
                (construct 16%N FlakyHost.world1).1 FlakyHost.world1
                "lazy_tensors::select" FlakyHost.ready FlakyHost.not_ready
                eq_refl eq_refl eq_refl) as H.
  vm_compute in H. vm_compute. tauto.
Defined.

Lemma distinct_names_distinct_kinds_witness :
  distinct_kinds_from (Host := NumberingHost.host)
    (registry NumberingHost.world0) ∧
  chars NumberingHost.world0 !! 16%N = Some "lazy_tensors::select" ∧
  chars NumberingHost.world0 !! 48%N = Some "lazy_tensors::cast" ∧
  "lazy_tensors::select" ≠ "lazy_tensors::cast" ∧
  let '(h1, w1) := construct 16%N NumberingHost.world0 in
  let '(h2, w2) := construct 48%N w1 in
  let '(_, _, _, rs) :=
    resolve_both [(false, Deref); (true, Convert); (false, Convert)] h1 h2 w2 in
  rs = [(false, Returned (NumberingHost.kind 1));
        (true, Returned (NumberingHost.kind 2));
        (false, Returned (NumberingHost.kind 1))] ∧
  ∀ v1 v2, (false, Returned v1) ∈ rs → (true, Returned v2) ∈ rs → v1 ≠ v2.
Proof.
  assert (Hne : "lazy_tensors::select" ≠ "lazy_tensors::cast") by done.
  split; [exact (numbering_distinct _)|]. split; [reflexivity|].
  split; [reflexivity|]. split; [exact Hne|].
  split; [reflexivity|].
  exact (proj2 (proj2 (proj2
    (distinct_names_distinct_kinds 16%N 48%N
       "lazy_tensors::select" "lazy_tensors::cast" NumberingHost.world0
       [(false, Deref); (true, Convert); (false, Convert)]
       (numbering_distinct _) eq_refl eq_refl Hne)))).
Defined.

(** * Further properties of the handle *)

Section Further.
Context `{Host : LazyHost}.

(** X1. Once a call has returned a kind, the handle stands on its own:
    every later call, in whatever world it is made (the array behind
    [name_] gone or overwritten, the registry in any state), returns that
    kind, leaves the handle and the world as they are and so makes no
    lookup and reads no memory. *)
Theorem resolved_handle_ignores_the_world (a : accessor)
    (h h1 : OpKindWrapper) (w w1 : World) (v : OpKind) :
  resolve a h w = (h1, w1, Returned v) →
  ∀ (calls : list accessor) (w' : World),
    resolve_all calls h1 w' =
      (h1, w', replicate (length calls) (Returned v)).
Proof.
  rewrite resolve_cases. intros Hret calls w'.
  assert (once_ h1 = once_done ∧ op_kind_ h1 = v) as [Hd <-].
  { destruct (once_ h) eqn:Hf; simplify_eq; [|done].
    destruct (chars w !! name_ h) as [s|]; [|done].
    destruct (OpKind_Get s (registry w)) as [r' [e|v']]; by simplify_eq. }
  by apply resolve_all_done.
Qed.

(** X2. Calls that end by an exception leave nothing behind in the
    handle: after any number of calls none of which returned, the handle
    is the freshly constructed one, each call has made exactly one lookup
    of the name and thrown what that lookup threw, and nothing else has
    happened. *)
Theorem throwing_calls_leave_the_handle_fresh (p : ptr) (s : string)
    (w : World) (calls : list accessor) :
  chars w !! p = Some s →
  let '(h, w0) := construct p w in
  let '(h', w', rs) := resolve_all calls h w0 in
  existsb is_returned rs = false →
  h' = h ∧
  ∃ es, rs = Thrown <$> es ∧ length es = length calls ∧
        history w' = history w ++ failed_lookups s es.
Proof.
  intros Hs. simpl.
  destruct (resolve_all_init calls
              {| name_ := p; op_kind_ := OpKind_default; once_ := once_init |}
              w s eq_refl Hs)
    as (es & n & tail & h' & w' & -> & Hlen & Hh & _ & _ & _ & Hcase).
  rewrite existsb_app. intros [_ Hnone]%orb_false_iff.
  destruct Hcase as [(-> & -> & ->)|(Hn & _ & _)].
  - split; [done|]. exists es. simpl in *.
    rewrite !app_nil_r in *. split_and!; [done|lia|done].
  - destruct n; [lia|]. done.
Qed.

Lemma obtained_agree (r0 : Registry) (s : string) (v1 v2 : OpKind)
    (names : list string) :
  idempotent_from r0 →
  obtained r0 s v1 names → obtained r0 s v2 names → v1 = v2.
Proof.
  intros Hid (pre1 & post1 & r1 & -> & G1) (pre2 & post2 & r2 & Heq & G2).
  destruct (two_lookups_in_order _ _ _ _ _ _ Heq)
    as [(mid & ->)|[(mid & ->)|(-> & _)]].
  - rewrite after_app, after_cons, G1 in G2. simpl in G2.
    exact (Hid pre1 mid s r1 r2 v1 v2 G1 G2).
  - rewrite after_app, after_cons, G2 in G1. simpl in G1.
    symmetry. exact (Hid pre2 mid s r2 r1 v2 v1 G2 G1).
  - congruence.
Qed.

(** X3. Let repeated lookups of a name agree, from the state the registry
    is in. Two handles are constructed on pointers to equal names and
    called any number of times in any order. Every call has its outcome,
    none undefined, all calls return a kind when the lookup of the name
    does not throw, and no two calls, on the same handle or on different
    ones, return different kinds. *)
Theorem same_name_same_kind (p1 p2 : ptr) (s : string) (w : World)
    (prog : list (bool * accessor)) :
  idempotent_from (registry w) →
  chars w !! p1 = Some s →
  chars w !! p2 = Some s →
  let '(h1, w1) := construct p1 w in
  let '(h2, w2) := construct p2 w1 in
  let '(_, _, _, rs) := resolve_both prog h1 h2 w2 in
  rs.*1 = prog.*1 ∧
  (∀ b r, (b, r) ∈ rs → is_undefined r = false) ∧
  (never_fails s → Forall (λ br, is_returned br.2 = true) rs) ∧
  ∀ b1 b2 v1 v2,
    (b1, Returned v1) ∈ rs → (b2, Returned v2) ∈ rs → v1 = v2.
Proof.
  intros Hid N1 N2. simpl.
  destruct (resolve_both_obtained (registry w) prog
    {| name_ := p1; op_kind_ := OpKind_default; once_ := once_init |}
    {| name_ := p2; op_kind_ := OpKind_default; once_ := once_init |}
    w [] s s eq_refl (or_introl eq_refl) (or_introl eq_refl) N1 N2)
    as (names & Hfst & Hob & Hund & Hret).
  destruct (resolve_both prog _ _ _) as [[[h1' h2'] w'] rs]; simpl in *.
  split_and!; auto.
  intros b1 b2 v1 v2 H1 H2.
  apply (obtained_agree (registry w) s v1 v2 names Hid).
  - specialize (Hob b1 v1 H1). by destruct b1.
  - specialize (Hob b2 v2 H2). by destruct b2.
Qed.

Lemma resolve_both_lookups (prog : list (bool * accessor)) :
  ∀ (h1 h2 : OpKindWrapper) (w : World) (s1 s2 : string),
    once_ h1 ≠ once_active → once_ h2 ≠ once_active →
    chars w !! name_ h1 = Some s1 → chars w !! name_ h2 = Some s2 →
    never_fails s1 → never_fails s2 →
    ∃ new,
      history (resolve_both prog h1 h2 w).1.2 = history w ++ new ∧
      count_if is_get new =
        (if pending h1 && called false prog then 1 else 0) +
        (if pending h2 && called true prog then 1 else 0).
Proof.
  induction prog as [|[b a] rest IH]; intros h1 h2 w s1 s2 A1 A2 N1 N2 F1 F2.
  { exists []. simpl. rewrite app_nil_r, !andb_false_r. done. }
  assert (Hone : ∀ h s, once_ h ≠ once_active → chars w !! name_ h = Some s →
    never_fails s →
    once_ (resolve a h w).1.1 = once_done ∧
    name_ (resolve a h w).1.1 = name_ h ∧
    chars (resolve a h w).1.2 = chars w ∧
    ∃ ev, history (resolve a h w).1.2 = history w ++ ev ∧
          count_if is_get ev = if pending h then 1 else 0).
  { intros h s A N F. rewrite resolve_cases. unfold pending.
    destruct (once_ h) eqn:Hf; [|done|].
    - rewrite N. destruct (F (registry w)) as (r' & v & ->). simpl.
      split_and!; auto. exists (resolution s v).
      by rewrite <- app_assoc.
    - simpl. split_and!; auto. exists []. by rewrite app_nil_r. }
  destruct b; simpl.
  - destruct (Hone h2 s2 A2 N2 F2) as (Hd & Hn & Hc & ev & Hev & Hcount).
    destruct (resolve a h2 w) as [[h2' w'] r]; simpl in *.
    destruct (IH h1 h2' w' s1 s2) as (new & Hnew & Hcnt); auto;
      [by rewrite Hd|by rewrite Hc|by rewrite Hc, Hn|].
    destruct (resolve_both rest h1 h2' w') as [[[h1'' h2''] w''] rs];
      simpl in *.
    exists (ev ++ new). rewrite Hnew, Hev, <- app_assoc. split; [done|].
    rewrite count_if_app, Hcount, Hcnt.
    replace (pending h2') with false
      by (unfold pending; by rewrite Hd).
    rewrite !andb_true_r. simpl. destruct (pending h1 && called false rest),
      (pending h2); simpl; lia.
  - destruct (Hone h1 s1 A1 N1 F1) as (Hd & Hn & Hc & ev & Hev & Hcount).
    destruct (resolve a h1 w) as [[h1' w'] r]; simpl in *.
    destruct (IH h1' h2 w' s1 s2) as (new & Hnew & Hcnt); auto;
      [by rewrite Hd|by rewrite Hc, Hn|by rewrite Hc|].
    destruct (resolve_both rest h1' h2 w') as [[[h1'' h2''] w''] rs];
      simpl in *.
    exists (ev ++ new). rewrite Hnew, Hev, <- app_assoc. split; [done|].
    rewrite count_if_app, Hcount, Hcnt.
    replace (pending h1') with false
      by (unfold pending; by rewrite Hd).
    rewrite !andb_true_r. simpl. destruct (pending h2 && called true rest),
      (pending h1); simpl; lia.
Qed.

(** X4. The cache belongs to the instance, not to the name: of two fresh
    handles, even on one and the same name, each that is called at all
    makes its own lookup, once, when the lookups do not throw; a program
    of calls on both thus makes as many lookups as it uses handles. *)
Theorem each_handle_makes_its_own_lookup (p1 p2 : ptr) (s1 s2 : string)
    (w : World) (prog : list (bool * accessor)) :
  chars w !! p1 = Some s1 →
  chars w !! p2 = Some s2 →
  never_fails s1 → never_fails s2 →
  let '(h1, w1) := construct p1 w in
  let '(h2, w2) := construct p2 w1 in
  let '(_, _, w', _) := resolve_both prog h1 h2 w2 in
  ∃ new,
    history w' = history w ++ new ∧
    count_if is_get new =
      (if called false prog then 1 else 0) +
      (if called true prog then 1 else 0).
Proof.
  intros N1 N2 F1 F2. simpl.
  destruct (resolve_both_lookups prog
    {| name_ := p1; op_kind_ := OpKind_default; once_ := once_init |}
    {| name_ := p2; op_kind_ := OpKind_default; once_ := once_init |}
    w s1 s2) as (new & Hnew & Hcnt); auto; try done.
  destruct (resolve_both prog _ _ _) as [[[h1' h2'] w'] rs]; simpl in *.
  by exists new.
Qed.

Lemma lookups_of_failed (s : string) (es : list Failure) :
  lookups_of s (failed_lookups s es).
Proof.
  unfold lookups_of, failed_lookups. induction es as [|e es IH]; csimpl;
    [by apply Forall_nil|by apply Forall_cons].
Qed.

(** X5. Memoization holds across threads and repeated calls: whatever
    number of threads make whatever number of calls each on a fresh
    handle, in any interleaving, every lookup made is a lookup of the
    name of the handle; at most one of them has returned; the others are
    exactly the calls that ended by an exception; the lookups were made
    one after the other, each on the registry as the one before left it,
    the last leaving the registry as it is now; and when the lookup of
    the name never throws at most one lookup is ever made. *)
Theorem lookups_across_threads (todos : list nat) (p : ptr) (s : string)
    (w : World) (sched : list nat) :
  chars w !! p = Some s →
  let st := run sched (spawn p w todos) in
  let new := since (length (history w)) st in
  lookups_of s new ∧
  count_if is_get_ok new ≤ 1 ∧
  count_if is_get new =
    sum_list (nthrown <$> pool st) + count_if is_get_ok new ∧
  answers s (registry w) (omap get_result new) (registry (world st)) ∧
  (never_fails s → count_if is_get new ≤ 1).
Proof.
  intros Hs st new.
  assert (Hinv : inv s (registry w) (history w) st)
    by (apply run_inv, spawn_inv, Hs).
  destruct (inv_view _ _ _ _ Hinv)
    as (es & tail & Hnew & Hlen & Hans & Hcase & _).
  fold new in Hnew. rewrite Hnew, !count_if_app.
  destruct (count_failed_lookups s es) as (-> & -> & _ & _).
  rewrite <- Hlen.
  assert (Htail : lookups_of s tail ∧ count_if is_get_ok tail ≤ 1 ∧
                  count_if is_get tail = count_if is_get_ok tail).
  { unfold lookups_of.
    destruct Hcase as [(-> & _)|[(v & -> & _)|(-> & _)]]; simpl;
      split_and!; auto; repeat constructor. }
  destruct Htail as (Hof & Hok & Heq).
  split_and!.
  - apply Forall_app. split; [apply lookups_of_failed|done].
  - lia.
  - lia.
  - by rewrite omap_app, get_result_failed.
  - intros Hnever.
    assert (es = []) as ->; [|simpl; lia].
    destruct es as [|e es]; [done|]. simpl in Hans.
    destruct Hans as (r1 & HG & _).
    destruct (Hnever (registry w)) as (r' & v & HG'). congruence.
Qed.

Lemma spawn_budget (p : ptr) (w : World) (todos : list nat)
    (sched : list nat) (t k : nat) :
  todos !! t = Some k →
  ∃ th, pool (run sched (spawn p w todos)) !! t = Some th ∧ budget th = k.
Proof.
  intros Ht. set (st0 := spawn p w todos).
  destruct (run_name sched st0) as (_ & _ & Hlen).
  assert (H0 : pool st0 !! t = Some {| at_ := Idle; todo := k; results := [] |}).
  { unfold st0, spawn; simpl. by rewrite list_lookup_fmap, Ht. }
  destruct (lookup_lt_is_Some_2 (pool (run sched st0)) t) as [th Hth].
  { rewrite Hlen. by eapply lookup_lt_Some. }
  exists th. split; [done|].
  pose proof (run_budget sched st0) as Hb.
  apply (f_equal (λ l, l !! t)) in Hb.
  rewrite !list_lookup_fmap, Hth, H0 in Hb. by simplify_eq/=.
Qed.

(** X6. No call is left waiting and none is lost. In every state reached
    by threads calling [get()] on a fresh handle whose name is in memory:
    if no thread can move, every thread has ended all its calls; some
    continuation always brings every thread there; and then each thread
    has as many outcomes as it had calls to make, each a returned kind or
    an exception. *)
Theorem no_call_is_left_waiting (todos : list nat) (p : ptr) (s : string)
    (w : World) (sched : list nat) :
  chars w !! p = Some s →
  let st := run sched (spawn p w todos) in
  ((∀ t, step t st = None) → all_finished st = true) ∧
  (∃ sched', all_finished (run sched' st) = true) ∧
  (all_finished st = true →
     ∀ t k, todos !! t = Some k →
       ∃ th, pool st !! t = Some th ∧ length (results th) = k ∧
             Forall (λ r, is_undefined r = false) (results th)).
Proof.
  intros Hs st.
  assert (Hinv : inv s (registry w) (history w) st)
    by (apply run_inv, spawn_inv, Hs).
  split_and!.
  - intros Hstuck. destruct (all_finished st) eqn:Hfin; [done|].
    destruct (progress _ _ _ _ Hinv Hfin) as (t & st' & Hstep).
    by rewrite Hstuck in Hstep.
  - by eapply can_finish.
  - intros Hfin t k Ht.
    destruct (spawn_budget p w todos sched t k Ht) as (th & Hp & Hb).
    fold st in Hp. exists th. split; [done|].
    pose proof (forallb_true _ _ _ _ Hfin Hp) as Hf.
    unfold is_finished in Hf. unfold budget, entered in Hb.
    destruct (at_ th); try done. destruct (todo th); [|done].
    split; [lia|].
    destruct (inv_view _ _ _ _ Hinv) as (_ & tail & _ & _ & _ & _ & Hth).
    destruct (Hth t th Hp) as [_ Hres].
    eapply Forall_impl; [exact Hres|]. by intros [v|e|].
Qed.

Lemma run_cons (t : nat) (sched : list nat) (st : state) :
  run (t :: sched) st = run sched (default st (step t st)).
Proof. done. Qed.

Lemma run_exhausted (n : nat) (h : OpKindWrapper) (w : World)
    (rs : list (outcome OpKind)) :
  run (replicate n 0)
    {| handle := h; world := w;
       pool := [{| at_ := Idle; todo := 0; results := rs |}] |} =
  {| handle := h; world := w;
     pool := [{| at_ := Idle; todo := 0; results := rs |}] |}.
Proof.
  induction n as [|n IH]; [done|].
  change (replicate (S n) 0) with (0 :: replicate n 0).
  rewrite run_cons. exact IH.
Qed.

(** X7. One thread alone is the sequential handle. A single thread that
    makes [k] calls on a handle whose name is in memory, given at least
    seven steps per call, ends with the handle, the world and the
    outcomes, in order, that [k] successive calls of the conversion
    operator give. *)
Theorem lone_thread_is_sequential (k : nat) :
  ∀ (n : nat) (h : OpKindWrapper) (w : World) (s : string)
    (rs : list (outcome OpKind)),
    once_ h ≠ once_active →
    chars w !! name_ h = Some s →
    7 * k ≤ n →
    run (replicate n 0)
      {| handle := h; world := w;
         pool := [{| at_ := Idle; todo := k; results := rs |}] |} =
    let '(h', w', outs) := resolve_all (replicate k Convert) h w in
    {| handle := h'; world := w';
       pool := [{| at_ := Idle; todo := 0; results := rs ++ outs |}] |}.
Proof.
  induction k as [|k IH]; intros n h w s rs Ha Hs Hn.
  { simpl. rewrite app_nil_r. apply run_exhausted. }
  do 7 (destruct n as [|n]; [lia|]).
  change (replicate (S (S (S (S (S (S (S n))))))) 0)
    with (0 :: 0 :: 0 :: replicate (S (S (S (S n)))) 0).
  change (replicate (S k) Convert) with (Convert :: replicate k Convert).
  cbn [resolve_all]. rewrite resolve_cases.
  destruct h as [p c f]. cbn [once_ name_ op_kind_] in *.
  destruct f; [|done|].
  - rewrite Hs.
    destruct (OpKind_Get s (registry w)) as [r' [e|v]] eqn:HG.
    + do 3 (rewrite run_cons; unfold step at 1, call_Get; cbn -[run replicate];
            rewrite ?Hs, ?HG; cbn -[run replicate]).
      unfold set_once, set_op_kind, finish, move; cbn -[run replicate].
      rewrite (IH (S (S (S (S n)))) _ _ s); [|done|done|lia].
      destruct (resolve_all (replicate k Convert) _ _) as [[h' w'] outs].
      by rewrite <- app_assoc.
    + change (replicate (S (S (S (S n)))) 0)
        with (0 :: 0 :: 0 :: 0 :: replicate n 0).
      do 7 (rewrite run_cons; unfold step at 1, call_Get; cbn -[run replicate];
            rewrite ?Hs, ?HG; cbn -[run replicate]).
      unfold set_once, set_op_kind, finish, move, assign_op_kind;
        cbn -[run replicate].
      rewrite (IH n _ _ s); [|done|done|lia].
      destruct (resolve_all (replicate k Convert) _ _) as [[h' w'] outs].
      by rewrite <- app_assoc.
  - do 3 (rewrite run_cons; unfold step at 1; cbn -[run replicate]).
    unfold set_once, set_op_kind, finish, move; cbn -[run replicate].
      rewrite (IH (S (S (S (S n)))) _ _ s); [|done|done|lia].
    destruct (resolve_all (replicate k Convert) _ _) as [[h' w'] outs].
    by rewrite <- app_assoc.
Qed.

End Further.

(** ** The further properties at work on the test registry *)

Lemma test_registry_cast_never_fails :
  never_fails (Host := TestHost.host) "lazy_tensors::cast".
Proof. intros r. eexists _, _. reflexivity. Qed.

(** A world with no character array at all and a registry that knows
    another name: a resolved handle still answers in it. *)
Lemma resolved_handle_ignores_the_world_witness :
  let h := (construct 16%N TestHost.world0).1 in
  let h1 := (resolve Deref h TestHost.world0).1.1 in
  let w1 := (resolve Deref h TestHost.world0).1.2 in
  let v := TestHost.kind "lazy_tensors::select" in
  let w' := @mkWorld TestHost.host ∅ ["lazy_tensors::cast"] [] in
  resolve Deref h TestHost.world0 = (h1, w1, Returned v) ∧
  resolve_all [Deref; Convert] h1 w' = (h1, w', [Returned v; Returned v]).
Proof.
  intros h h1 w1 v w'.
  assert (Hret : resolve Deref h TestHost.world0 = (h1, w1, Returned v))
    by reflexivity.
  split; [exact Hret|].
  exact (resolved_handle_ignores_the_world Deref h h1 TestHost.world0 w1 v
           Hret [Deref; Convert] w').
Defined.

Lemma throwing_calls_leave_the_handle_fresh_witness :
  chars TestHost.world0 !! 80%N = Some "ltc_select" ∧
  let h := (construct 80%N TestHost.world0).1 in
  let res := resolve_all [Deref; Convert; Deref] h TestHost.world0 in
  existsb is_returned res.2 = false ∧
  res.1.1 = h.
Proof.
  split; [reflexivity|]. intros h res.
  assert (Hnone : existsb is_returned res.2 = false) by reflexivity.
  split; [exact Hnone|].
  exact (proj1 (throwing_calls_leave_the_handle_fresh 80%N "ltc_select"
                  TestHost.world0 [Deref; Convert; Deref] eq_refl Hnone)).
Defined.

Lemma same_name_same_kind_witness :
  idempotent_from (Host := NumberingHost.host)
    (registry NumberingHost.world0) ∧
  chars NumberingHost.world0 !! 16%N = Some "lazy_tensors::select" ∧
  chars NumberingHost.world0 !! 112%N = Some "lazy_tensors::select" ∧
  let '(h1, w1) := construct 16%N NumberingHost.world0 in
  let '(h2, w2) := construct 112%N w1 in
  let '(_, _, _, rs) :=
    resolve_both [(true, Deref); (false, Convert); (true, Convert)] h1 h2 w2 in
  rs = [(true, Returned (NumberingHost.kind 1));
        (false, Returned (NumberingHost.kind 1));
        (true, Returned (NumberingHost.kind 1))] ∧
  ∀ b1 b2 v1 v2,
    (b1, Returned v1) ∈ rs → (b2, Returned v2) ∈ rs → v1 = v2.
Proof.
  split; [exact (numbering_idempotent _)|]. split; [reflexivity|].
  split; [reflexivity|]. split; [reflexivity|].
  exact (proj2 (proj2 (proj2
    (same_name_same_kind 16%N 112%N "lazy_tensors::select"
       NumberingHost.world0
       [(true, Deref); (false, Convert); (true, Convert)]
       (numbering_idempotent _) eq_refl eq_refl)))).
Defined.

Lemma each_handle_makes_its_own_lookup_witness :
  chars TestHost.world0 !! 16%N = Some "lazy_tensors::select" ∧
  chars TestHost.world0 !! 48%N = Some "lazy_tensors::cast" ∧
  never_fails (Host := TestHost.host) "lazy_tensors::select" ∧
  never_fails (Host := TestHost.host) "lazy_tensors::cast" ∧
  let '(h1, w1) := construct 16%N TestHost.world0 in
  let '(h2, w2) := construct 48%N w1 in
  let '(_, _, w', _) :=
    resolve_both [(true, Deref); (false, Convert); (true, Convert)] h1 h2 w2 in
  ∃ new,
    history w' = history TestHost.world0 ++ new ∧
    count_if is_get new = 2.
Proof.
  split; [reflexivity|]. split; [reflexivity|].
  split; [exact test_registry_select_never_fails|].
  split; [exact test_registry_cast_never_fails|].
  exact (each_handle_makes_its_own_lookup 16%N 48%N
           "lazy_tensors::select" "lazy_tensors::cast" TestHost.world0
           [(true, Deref); (false, Convert); (true, Convert)]
           eq_refl eq_refl
           test_registry_select_never_fails test_registry_cast_never_fails).
Defined.

Lemma lookups_across_threads_witness :
  chars TestHost.world0 !! 80%N = Some "ltc_select" ∧
  let st := run [0; 1; 0; 1; 0; 1; 1; 0; 0; 0]
              (spawn 80%N TestHost.world0 [2; 1]) in
  let new := since (length (history TestHost.world0)) st in
  count_if is_get new =
    sum_list (nthrown <$> pool st) + count_if is_get_ok new.
Proof.
  split; [reflexivity|].
  exact (proj1 (proj2 (proj2
    (lookups_across_threads [2; 1] 80%N "ltc_select" TestHost.world0
       [0; 1; 0; 1; 0; 1; 1; 0; 0; 0] eq_refl)))).
Defined.

Lemma no_call_is_left_waiting_witness :
  chars TestHost.world0 !! 16%N = Some "lazy_tensors::select" ∧
  let st := run [0; 1; 0; 1; 0; 1; 1; 0; 0; 0]
              (spawn 16%N TestHost.world0 [2; 1]) in
  ∃ sched', all_finished (run sched' st) = true.
Proof.
  split; [reflexivity|].
  exact (proj1 (proj2
    (no_call_is_left_waiting [2; 1] 16%N "lazy_tensors::select"
       TestHost.world0 [0; 1; 0; 1; 0; 1; 1; 0; 0; 0] eq_refl))).
Defined.

Lemma lone_thread_is_sequential_witness :
  let h := (construct 16%N TestHost.world0).1 in
  once_ h ≠ once_active ∧
  chars TestHost.world0 !! name_ h = Some "lazy_tensors::select" ∧
  7 * 2 ≤ 14 ∧
  run (replicate 14 0)
    {| handle := h; world := TestHost.world0;
       pool := [{| at_ := Idle; todo := 2; results := [] |}] |} =
  let '(h', w', outs) :=
    resolve_all (replicate 2 Convert) h TestHost.world0 in
  {| handle := h'; world := w';
     pool := [{| at_ := Idle; todo := 0; results := [] ++ outs |}] |}.
Proof.
  intros h.
  assert (Ha : once_ h ≠ once_active) by done.
  assert (Hn : 7 * 2 ≤ 14) by (simpl; lia).
  split; [exact Ha|]. split; [reflexivity|]. split; [exact Hn|].
  exact (lone_thread_is_sequential 2 14 h TestHost.world0
           "lazy_tensors::select" [] Ha eq_refl Hn).
Defined.
